(** * nice-grpc: the terminator middleware, the middleware chain and
      client-streaming calls

    The first part is a shallow embedding of
    [packages/nice-grpc-server-middleware-terminator/src/index.ts] over an
    explicit model of the JavaScript objects it manipulates: abort
    controllers with their listeners, the [Set] of controllers, and context
    objects held by reference.  The second part models, from the
    specification, the pieces of nice-grpc that the test [test('chain')]
    and the tests of [__tests__/clientStreaming.ts] drive, and transcribes
    the handlers and producers of those tests.  The properties follow the
    definitions. *)

From stdpp Require Import base list strings pretty gmap.

(** ** Abort controllers and their signals

    An [AbortController] and its [signal] are one heap cell, named by its
    index.  The cell holds the latched [aborted] flag and the listeners
    registered for the ['abort'] event, in registration order. *)

(** The only listener the middleware creates is the closure
    [() => { innerAbortController.abort(); }] of index.ts:41-43; it is
    identified by the controller it captured.  Listeners of other code
    (handlers, the transport) do not touch the state modelled here. *)
Inductive listener :=
  | abortListener (innerAbortController : nat)
  | foreignListener (tag : nat).

#[global] Instance listener_eq_dec : EqDecision listener.
Proof. solve_decision. Defined.

Record AbortSignal := mkSignal {
  aborted : bool;
  listeners : list listener
}.

(** [new AbortController()] *)
Definition new_AbortController (h : list AbortSignal) : nat * list AbortSignal :=
  (length h, h ++ [mkSignal false []]).

(** [signal.aborted] *)
Definition is_aborted (c : nat) (h : list AbortSignal) : bool :=
  match h !! c with
  | Some sg => aborted sg
  | None => false
  end.

(** [signal.addEventListener('abort', l)]: a listener already registered is
    not registered twice; registering on a signal that has already fired
    never runs the listener. *)
Definition addEventListener (s : nat) (l : listener) (h : list AbortSignal)
  : list AbortSignal :=
  match h !! s with
  | Some sg =>
      if decide (l ∈ listeners sg) then h
      else <[s := mkSignal (aborted sg) (listeners sg ++ [l])]> h
  | None => h
  end.

(** [signal.removeEventListener('abort', l)] *)
Definition removeEventListener (s : nat) (l : listener) (h : list AbortSignal)
  : list AbortSignal :=
  match h !! s with
  | Some sg =>
      <[s := mkSignal (aborted sg) (filter (λ x, x ≠ l) (listeners sg))]> h
  | None => h
  end.

(** What running one listener does, given how to abort a controller. *)
Definition run_listener (abort_rec : nat → list AbortSignal → list AbortSignal)
    (h : list AbortSignal) (l : listener) : list AbortSignal :=
  match l with
  | abortListener inner => abort_rec inner h
  | foreignListener _ => h
  end.

(** [controller.abort()]: nothing on a signal that already fired; otherwise
    the flag is latched and the listeners registered at that moment run in
    order, each of which may abort further controllers.  The recursion is
    bounded by the number of signals that have not fired yet, see
    [abort_n_enough]. *)
Fixpoint abort_n (fuel : nat) (c : nat) (h : list AbortSignal)
  : list AbortSignal :=
  match fuel with
  | 0 => h
  | S fuel' =>
      match h !! c with
      | Some sg =>
          if aborted sg then h
          else foldl (run_listener (abort_n fuel'))
                 (<[c := mkSignal true (listeners sg)]> h) (listeners sg)
      | None => h
      end
  end.

Definition abort (c : nat) (h : list AbortSignal) : list AbortSignal :=
  abort_n (S (length h)) c h.
Arguments abort : simpl never.

(** Number of signals that have not fired. *)
Definition pending (h : list AbortSignal) : nat :=
  length (filter (λ sg, aborted sg = false) h).

(** ** The [Set] of controllers (insertion ordered, no duplicates) *)

Definition Set_add (x : nat) (s : list nat) : list nat :=
  if decide (x ∈ s) then s else s ++ [x].

Definition Set_delete (x : nat) (s : list nat) : list nat :=
  filter (λ y, y ≠ x) s.

(** ** Status codes and thrown values *)

(** Modelled from the spec: the [Status] enum of nice-grpc-common, which
    index.ts imports; the codes are those of section 3 of the
    specification. *)
Inductive Status :=
  | OK | CANCELLED | UNKNOWN | INVALID_ARGUMENT | DEADLINE_EXCEEDED
  | NOT_FOUND | ALREADY_EXISTS | PERMISSION_DENIED | UNAUTHENTICATED
  | RESOURCE_EXHAUSTED | FAILED_PRECONDITION | ABORTED | OUT_OF_RANGE
  | UNIMPLEMENTED | INTERNAL | UNAVAILABLE | DATA_LOSS.

#[global] Instance Status_eq_dec : EqDecision Status.
Proof. solve_decision. Defined.

(** A thrown value: a [ServerError], an [AbortError], or any other error. *)
Inductive thrown :=
  | ServerError (status : Status) (details : string)
  | AbortError
  | JsError (message : string).

#[global] Instance thrown_eq_dec : EqDecision thrown.
Proof. solve_decision. Defined.

(** ** Call contexts

    A context is an object held by reference.  Its [signal] property is
    kept apart; every other property (metadata, peer, header, trailer,
    sendHeader and the extensions middlewares add) lives in [props]. *)
Inductive value :=
  | VString (s : string)
  | VMetadata (entries : list (string * list string))
  | VAbortOnTerminate (innerAbortController : nat)
  | VOther (tag : nat).

#[global] Instance value_eq_dec : EqDecision value.
Proof. solve_decision. Defined.

Record CallContext := mkContext {
  signal : nat;
  props : gmap string value
}.

#[global] Instance CallContext_inhabited : Inhabited CallContext :=
  populate (mkContext 0 ∅).

(** ** State of one [TerminatorMiddleware()] instance and of the heap *)

Record state := mkState {
  terminated : bool;              (* index.ts:32 *)
  abortControllers : list nat;    (* index.ts:33 *)
  signals : list AbortSignal;
  objects : list CallContext
}.

Definition set_signals (h : list AbortSignal) (st : state) : state :=
  mkState (terminated st) (abortControllers st) h (objects st).

Definition set_abortControllers (s : list nat) (st : state) : state :=
  mkState (terminated st) s (signals st) (objects st).

(** Reading [context.signal] through the reference [context].  A reference
    is never dangling in JavaScript; on an index outside the store the
    lookup falls back on an empty context. *)
Definition context_signal (context : nat) (st : state) : nat :=
  signal (objects st !!! context).

(** The body of the [abortOnTerminate()] closure, index.ts:51-57. *)
Definition abortOnTerminate (innerAbortController : nat) (st : state) : state :=
  if negb (terminated st) then
    set_abortControllers (Set_add innerAbortController (abortControllers st)) st
  else
    set_signals (abort innerAbortController (signals st)) st.

(** [terminate()], index.ts:72-84. *)
Definition terminate (st : state) : state :=
  if terminated st then st
  else
    mkState true []
      (foldl (λ h abortController, abort abortController h)
         (signals st) (abortControllers st))
      (objects st).

(** ** The middleware *)

(** How the delegated sequence ended: it returned, it threw, or the consumer
    stopped it early with [return()]. *)
Inductive completion (Response : Type) :=
  | Returned (r : option Response)
  | Threw (err : thrown)
  | Stopped.
Arguments Returned {Response} r.
Arguments Threw {Response} err.
Arguments Stopped {Response}.

(** The variables of one running invocation. *)
Record frame := mkFrame {
  frame_context : nat;            (* the [context] argument *)
  innerAbortController : nat      (* index.ts:39 *)
}.

(** The object literal of index.ts:49-57: a copy of the properties of
    [context] with [signal] replaced and [abortOnTerminate] set. *)
Definition inner_context (ctx : CallContext) (inner : nat) : CallContext :=
  mkContext inner (<["abortOnTerminate" := VAbortOnTerminate inner]> (props ctx)).

(** index.ts:39-58, up to the call of [call.next]: the new controller, the
    listener on [context.signal], and the context object for downstream.
    Returns the frame, the reference to the new context and the state. *)
Definition mw_enter (context : nat) (st : state) : frame * nat * state :=
  let '(inner, h1) := new_AbortController (signals st) in
  let h2 := addEventListener (context_signal context st) (abortListener inner) h1 in
  let ctx' := inner_context (objects st !!! context) inner in
  (mkFrame context inner, length (objects st),
   mkState (terminated st) (abortControllers st) h2 (objects st ++ [ctx'])).

(** The [catch] block, index.ts:59-64: the value it throws. *)
Definition mw_catch (f : frame) (err : thrown) (st : state) : thrown :=
  if is_aborted (innerAbortController f) (signals st)
     && negb (is_aborted (context_signal (frame_context f) st) (signals st))
  then ServerError UNAVAILABLE "Server shutting down"
  else err.

(** The [finally] block, index.ts:65-68. *)
Definition mw_finally (f : frame) (st : state) : state :=
  let h := removeEventListener (context_signal (frame_context f) st)
             (abortListener (innerAbortController f)) (signals st) in
  mkState (terminated st)
    (Set_delete (innerAbortController f) (abortControllers st)) h (objects st).

Section Middleware.
Context {Request Response : Type}.

(** [ServerMiddlewareCall]: the request and [next]; [next] runs the rest of
    the chain on a context reference and yields responses before it
    completes. *)
Record ServerMiddlewareCall := mkCall {
  request : Request;
  next : Request → nat → state → list Response * completion Response * state
}.

(** [terminatorMiddleware], index.ts:35-69.  [yield*] forwards what the
    rest of the chain yields and its return value; a throw goes through
    [catch]; every way out goes through [finally]. *)
Definition terminatorMiddleware (call : ServerMiddlewareCall) (context : nat)
    (st : state) : list Response * completion Response * state :=
  let '(f, context', st1) := mw_enter context st in
  let '(yielded, c, st2) := next call (request call) context' st1 in
  let c' := match c with
            | Threw err => Threw (mw_catch f err st2)
            | _ => c
            end in
  (yielded, c', mw_finally f st2).
End Middleware.
Arguments ServerMiddlewareCall : clear implicits.

(** ** Calls in flight

    What can happen around one middleware instance while calls are running:
    calls enter and leave the middleware, downstream code invokes the
    [abortOnTerminate] closure it was given, [terminate()] is invoked, the
    server aborts a controller (peer cancellation, deadline) or creates new
    controllers and contexts. *)
Inductive event :=
  | EvEnter (context : nat)
  | EvAbortOnTerminate (inner : nat)
  | EvExit (f : frame)
  | EvTerminate
  | EvAbort (c : nat)
  | EvNewController
  | EvNewContext (ctx : CallContext)
  | EvForeignListener (s tag : nat).

Definition step (st : state) (ev : event) : state :=
  match ev with
  | EvEnter context => (mw_enter context st).2
  | EvAbortOnTerminate inner => abortOnTerminate inner st
  | EvExit f => mw_finally f st
  | EvTerminate => terminate st
  | EvAbort c => set_signals (abort c (signals st)) st
  | EvNewController => set_signals (new_AbortController (signals st)).2 st
  | EvNewContext ctx =>
      mkState (terminated st) (abortControllers st) (signals st)
        (objects st ++ [ctx])
  | EvForeignListener s tag =>
      set_signals (addEventListener s (foreignListener tag) (signals st)) st
  end.

Definition run (evs : list event) (st : state) : state := foldl step st evs.

(** The state of a freshly created [TerminatorMiddleware()]. *)
Definition initial : state := mkState false [] [] [].

(** The listener [l] is registered on the signal [s]. *)
Definition registered (l : listener) (s : nat) (h : list AbortSignal) : Prop :=
  ∃ sg, h !! s = Some sg ∧ l ∈ listeners sg.

(** Downstream code invoking [context.abortOnTerminate()] on the context it
    was handed. *)
Definition call_abortOnTerminate (context : nat) (st : state) : state :=
  match props (objects st !!! context) !! "abortOnTerminate" with
  | Some (VAbortOnTerminate inner) => abortOnTerminate inner st
  | _ => st
  end.

(** Once [terminate()] has run: the flag is set and the set is empty. *)
Definition sealed (st : state) : Prop :=
  terminated st = true ∧ abortControllers st = [].

(** ** A small world to run the middleware in

    One call context (reference 0) whose signal is controller 0, and a
    handler that opts in with [abortOnTerminate()], is still suspended when
    [terminate()] runs, and is thrown the [AbortError] of its signal. *)
Definition one_call : state :=
  mkState false [] [mkSignal false []] [mkContext 0 ∅].

Definition waiting_handler : ServerMiddlewareCall string string :=
  mkCall "test"
    (λ _ context st, ([], Threw AbortError, terminate (call_abortOnTerminate context st))).

(** The same handler when it is the peer that cancels: the server aborts the
    signal of the call, controller 0. *)
Definition cancelled_handler : ServerMiddlewareCall string string :=
  mkCall "test"
    (λ _ context st,
       ([], Threw AbortError,
        set_signals (abort 0 (signals (call_abortOnTerminate context st)))
          (call_abortOnTerminate context st))).

(** Handlers that opt in and then return a response, or are stopped early
    by the consumer after one response. *)
Definition returning_handler : ServerMiddlewareCall string string :=
  mkCall "test"
    (λ request context st,
       ([], Returned (Some request), call_abortOnTerminate context st)).

Definition stopped_handler : ServerMiddlewareCall string string :=
  mkCall "test"
    (λ request context st,
       ([request], Stopped, call_abortOnTerminate context st)).

(** The forwarding of one call is in place: the listener capturing [inner]
    is registered on [outer], and if [outer] has fired so has [inner]. *)
Definition forwards (outer inner : nat) (h : list AbortSignal) : Prop :=
  ∃ sg, h !! outer = Some sg ∧ abortListener inner ∈ listeners sg ∧
        inner < length h ∧
        (aborted sg = true → is_aborted inner h = true).

(** A call whose context signal has already fired when it reaches the
    middleware (the peer cancelled while an earlier middleware was still
    awaiting), and a handler that returns what it reads from the signal it
    was given. *)
Definition cancelled_before_entry : state :=
  mkState false [] [mkSignal true []] [mkContext 0 ∅].

Definition polling_handler : ServerMiddlewareCall string string :=
  mkCall "test"
    (λ _ context st,
       ([],
        Returned (Some (if is_aborted (context_signal context st) (signals st)
                        then "aborted" else "running")),
        st)).

(** * The middleware chain

    Modelled from the spec: [Server.use], the chain it builds and
    [createTestServerMiddleware] are code of nice-grpc that the test
    [test('chain')] calls; the test itself and the handler it registers are
    transcribed from it. *)

(** Modelled from the spec: the messages of the test fixtures; the tests
    only read and set their [id]. *)
Record TestRequest := mkRequest { request_id : string }.
Record TestResponse := mkResponse { response_id : string }.

Module Chain.

(** Modelled from the spec: the method descriptor of section 6, without
    its codecs. *)
Record MethodDescriptor := mkMethod {
  path : string;
  requestStream : bool;
  responseStream : bool
}.

(** The objects pushed to the [actions] array. *)
Inductive action :=
  | start_action (type : string) (requestStream responseStream : bool)
  | request_action (type : string) (request : TestRequest)
  | response_action (type : string) (response : TestResponse)
  | handler_action (type : string) (test1 test2 : option value).

(** Code that pushes to the shared [actions] array and produces a value; a
    unary call ends with a response or with a thrown value. *)
Definition Logged (A : Type) : Type := A * list action.

Definition ret {A} (a : A) : Logged A := (a, []).

Definition bind {A B} (m : Logged A) (k : A → Logged B) : Logged B :=
  let '(b, l) := k m.1 in (b, m.2 ++ l).

Definition push (a : action) : Logged unit := (tt, [a]).

Notation "'let*' x := m 'in' k" := (bind m (λ x, k))
  (at level 10, x name, m at level 100, k at level 200).
Notation "m ;; k" := (bind m (λ _, k))
  (at level 100, k at level 200, right associativity).

Definition Result : Type := thrown + TestResponse.

(** Modelled from the spec: [ServerMiddlewareCall] and [ServerMiddleware] of
    section 4.C, for a unary method. *)
Record Call := mkCall {
  method : MethodDescriptor;
  request : TestRequest;
  next : TestRequest → gmap string value → Logged Result
}.

Definition Middleware : Type := Call → gmap string value → Logged Result.

(** Modelled from the spec: [createTestServerMiddleware(contextExt, actions,
    prefix)], of which section 8, scenario 1 gives the observations: the
    start of the call with the streaming flags of the method, the request,
    then, after the rest of the chain has run on the context extended with
    [contextExt], the response. *)
Definition createTestServerMiddleware (contextExt : gmap string value)
    (actionTypePrefix : string) : Middleware :=
  λ call context,
    push (start_action (actionTypePrefix +:+ "start")
            (requestStream (method call)) (responseStream (method call))) ;;
    push (request_action (actionTypePrefix +:+ "request") (request call)) ;;
    let* r := next call (request call) (contextExt ∪ context) in
    match r with
    | inr response =>
        push (response_action (actionTypePrefix +:+ "response") response) ;;
        ret (inr response)
    | inl err => ret (inl err)
    end.

(** Modelled from the spec: a server is the middlewares given to [use], in
    that order; section 4.C: [server.use(m1).use(m2)] applied to handler [h]
    yields [m1(·, ctx → m2(·, ctx → h(·, ctx)))]. *)
Definition Server : Type := list Middleware.

(** Modelled from the spec: [createServer()], a server without
    middleware. *)
Definition createServer : Server := [].

(** Modelled from the spec: [server.use(m)], section 6; the middleware goes
    inside those already in use. *)
Definition use (m : Middleware) (server : Server) : Server := server ++ [m].

(** Modelled from the spec: how a server with its middlewares runs a unary
    handler, by the composition law of section 4.C; each middleware gets a
    [call] whose [next] is the rest of the chain. *)
Definition handle (server : Server) (md : MethodDescriptor)
    (handler : TestRequest → gmap string value → Logged Result)
  : TestRequest → gmap string value → Logged Result :=
  foldr (λ m rest, λ req context, m (mkCall md req rest) context) handler server.

(** The handler of the test, part_000:28-35. *)
Definition testUnary (request : TestRequest) (context : gmap string value)
  : Logged Result :=
  push (handler_action "request" (context !! "test1") (context !! "test2")) ;;
  ret (inr (mkResponse (request_id request))).

(** The server of the test, part_000:11-25. *)
Definition test_server : Server :=
  use (createTestServerMiddleware {["test2" := VString "test-value-2"]}
         "middleware2-")
    (use (createTestServerMiddleware {["test1" := VString "test-value-1"]}
            "middleware1-")
       createServer).

Definition TestUnary : MethodDescriptor :=
  mkMethod "/nice_grpc.test.Test/TestUnary" false false.

End Chain.

(** * Client-streaming calls

    Modelled from the spec: the server call dispatcher (section 4.B), the
    client call driver (section 4.D), [Metadata] (sections 3 and 4.A) and
    the transport between them are code that the tests of
    [__tests__/clientStreaming.ts] drive; the handlers and the request
    producer are transcribed from the tests. *)
Module ClientStreaming.

(** ** Metadata *)

(** Modelled from the spec: an ordered mapping from a key to a sequence of
    values, iterated in insertion order. *)
Definition Metadata : Type := list (string * list string).

(** Modelled from the spec: [set(key, values)], section 4.A. *)
Fixpoint Metadata_set (key : string) (values : list string) (md : Metadata)
  : Metadata :=
  match md with
  | [] => [(key, values)]
  | (k, vs) :: rest =>
      if decide (k = key) then (key, values) :: rest
      else (k, vs) :: Metadata_set key values rest
  end.

(** Modelled from the spec: [getAll(key)], section 4.A. *)
Fixpoint Metadata_getAll (key : string) (md : Metadata) : list string :=
  match md with
  | [] => []
  | (k, vs) :: rest =>
      if decide (k = key) then vs else Metadata_getAll key rest
  end.

(** Modelled from the spec: section 3, keys ending in [-bin] carry byte
    strings. *)
Fixpoint is_binary_key (key : string) : bool :=
  if decide (key = "-bin") then true
  else match key with
       | EmptyString => false
       | String _ rest => is_binary_key rest
       end.

(** Modelled from the spec: what the transport does to metadata.  Section
    4.A leaves the joining of the values of a text key to the transport; the
    snapshots of clientStreaming.ts (lines 122-126, 148-152, 224-228 and
    297-301) show the values of a text key arriving as one value, joined by
    a comma and a space; those of lines 128-143 and 155-170 show the values
    of a binary key arriving one by one, as sent. *)
Definition wire_entry (e : string * list string) : string * list string :=
  if is_binary_key e.1 then e else (e.1, [String.concat ", " e.2]).

(** Modelled from the spec: metadata as it arrives, entry by entry. *)
Definition wire_metadata (md : Metadata) : Metadata := wire_entry <$> md.

(** ** The server side *)

(** Modelled from the spec: what the server hands to the transport for one
    call, section 6: the header, the responses, the trailer. *)
Inductive Frame :=
  | HeaderFrame (md : Metadata)
  | MessageFrame (response : TestResponse)
  | TrailerFrame (status : Status) (details : string) (md : Metadata).

(** Modelled from the spec: the parts of the server-side [CallContext] of
    section 3 that a handler writes to. *)
Record ServerContext := mkServerContext {
  header : Metadata;
  trailer : Metadata;
  headerSent : bool
}.

Definition set_trailer (md : Metadata) (context : ServerContext) : ServerContext :=
  mkServerContext (header context) md (headerSent context).

Definition new_context : ServerContext := mkServerContext [] [] false.

(** Modelled from the spec: what fires the signal of a call, sections 3 and
    5: cancellation by the peer, the deadline elapsing, local shutdown. *)
Inductive cause := PeerCancelled | DeadlineElapsed | ShutDown.

#[global] Instance cause_eq_dec : EqDecision cause.
Proof. solve_decision. Defined.

(** Modelled from the spec: a client-streaming handler of section 4.B, run
    on the requests that reach it, on [context.signal.aborted] and on the
    parts of the context it writes to. *)
Definition Handler : Type :=
  list TestRequest → bool → ServerContext →
  (thrown + TestResponse) * ServerContext.

(** Modelled from the spec: one call as the dispatcher sees it. *)
Record ServerCall := mkServerCall {
  signal_aborted : bool;      (* [context.signal.aborted] *)
  peer_gone : bool;           (* the peer has cancelled *)
  context : ServerContext;
  sent : list Frame;
  finished : bool
}.

(** Modelled from the spec: section 3, the signal fires when the call is
    cancelled by the peer, by deadline, or by local shutdown. *)
Definition fire (sc : ServerCall) (c : cause) : ServerCall :=
  mkServerCall true (peer_gone sc || bool_decide (c = PeerCancelled))
    (context sc) (sent sc) (finished sc).

(** Modelled from the spec: section 4.B, step 4.  The header goes out before
    the first response or at clean completion, or earlier if the handler
    called [sendHeader()]; normal completion sends the trailer with [OK]; a
    [ServerError] sends the trailer with its status and details; any other
    thrown value sends [UNKNOWN] with a sanitized message; once the peer has
    cancelled nothing more is sent.  The trailer carries the trailer
    metadata as the handler left it. *)
Definition finish_call (sanitize : thrown → string)
    (r : thrown + TestResponse) (context' : ServerContext) (sc : ServerCall)
  : ServerCall :=
  let explicit_header :=
    if headerSent context' then [HeaderFrame (header context')] else [] in
  let frames :=
    if peer_gone sc then explicit_header
    else match r with
         | inr response =>
             [HeaderFrame (header context'); MessageFrame response;
              TrailerFrame OK "" (trailer context')]
         | inl (ServerError status details) =>
             explicit_header ++ [TrailerFrame status details (trailer context')]
         | inl err =>
             explicit_header
             ++ [TrailerFrame UNKNOWN (sanitize err) (trailer context')]
         end in
  mkServerCall (signal_aborted sc) (peer_gone sc) context' frames true.

Definition new_call : ServerCall :=
  mkServerCall false false new_context [] false.

(** Modelled from the spec: section 4.B, steps 1 to 4, for a handler that
    runs to its end.  [before] is what fired the signal before the handler
    ended, [after] what fired it afterwards. *)
Definition serve (sanitize : thrown → string) (handler : Handler)
    (requests : list TestRequest) (before after : list cause) : ServerCall :=
  let sc := foldl fire new_call before in
  let '(r, context') := handler requests (signal_aborted sc) (context sc) in
  foldl fire (finish_call sanitize r context' sc) after.

(** ** The transport and the client side *)

(** Modelled from the spec: a frame as it arrives at the client. *)
Definition transport (f : Frame) : Frame :=
  match f with
  | HeaderFrame md => HeaderFrame (wire_metadata md)
  | MessageFrame response => MessageFrame response
  | TrailerFrame status details md =>
      TrailerFrame status details (wire_metadata md)
  end.

(** Modelled from the spec: [ClientError] of section 3. *)
Record ClientError := mkClientError {
  ce_path : string;
  ce_status : Status;
  ce_details : string;
  ce_trailer : Metadata
}.

(** How a client call ended. *)
Inductive Settled :=
  | Resolved (response : TestResponse)
  | RejectedClientError (e : ClientError)
  | RejectedAbortError
  | RejectedOther.

(** Modelled from the spec: one call as the client driver sees it: the
    calls of [onHeader] and [onTrailer], the responses received, and how the
    promise of the call was settled. *)
Record ClientCall := mkClientCall {
  onHeader_calls : list Metadata;
  onTrailer_calls : list Metadata;
  responses : list TestResponse;
  settled : option Settled
}.

Definition new_client_call : ClientCall := mkClientCall [] [] [] None.

(** Modelled from the spec: section 4.D, steps 4 to 6, for a call with a
    single response.  [onHeader] and [onTrailer] receive the metadata of the
    frame; a trailer with [OK] completes the call with the response; any
    other status raises [ClientError(path, status, details,
    trailerMetadata)]. *)
Definition client_receive (path : string) (cc : ClientCall) (f : Frame)
  : ClientCall :=
  match settled cc with
  | Some _ => cc
  | None =>
      match f with
      | HeaderFrame md =>
          mkClientCall (onHeader_calls cc ++ [md]) (onTrailer_calls cc)
            (responses cc) None
      | MessageFrame response =>
          mkClientCall (onHeader_calls cc) (onTrailer_calls cc)
            (responses cc ++ [response]) None
      | TrailerFrame status details md =>
          mkClientCall (onHeader_calls cc) (onTrailer_calls cc ++ [md])
            (responses cc)
            (Some (if decide (status = OK) then
                     match responses cc with
                     | [response] => Resolved response
                     | _ => RejectedOther
                     end
                   else RejectedClientError
                          (mkClientError path status details md)))
      end
  end.

(** Modelled from the spec: the client side of a whole call, on the frames
    the server sent. *)
Definition client_call (path : string) (frames : list Frame) : ClientCall :=
  foldl (client_receive path) new_client_call (transport <$> frames).

(** ** The test [test('error')], clientStreaming.ts:235-306 *)

(** The requests of [createRequest()], lines 265-279: [test-0], [test-1],
    ... *)
Definition createRequest (i : nat) : TestRequest :=
  mkRequest ("test-" +:+ pretty i).

(** The handler, lines 242-251. *)
Definition testClientStream_error : Handler :=
  λ request _ context,
    let context :=
      set_trailer
        (Metadata_set "test" ["test-value-1"; "test-value-2"] (trailer context))
        context in
    match request with
    | item :: _ => (inl (ServerError NOT_FOUND (request_id item)), context)
    | [] => (inr (mkResponse ""), context)
    end.

Definition TestClientStream_path : string :=
  "/nice_grpc.test.Test/TestClientStream".

(** The statement of the specification for this scenario, word for word:
    the client receives [ClientError(path, status, details, md)] where [md]
    is the trailer metadata the handler set. *)
Definition spec_error_outcome (path : string) (status : Status)
    (details : string) (md : Metadata) : option Settled :=
  Some (RejectedClientError (mkClientError path status details md)).

(** Every text key has exactly one value. *)
Definition text_single_valued (md : Metadata) : Prop :=
  Forall (λ e, is_binary_key e.1 = true ∨ ∃ v, e.2 = [v]) md.

End ClientStreaming.

(** * Cancellation of a client-streaming call

    Modelled from the spec: what the client call driver does when
    [CallOptions.signal] fires (section 4.D, step 7), what the dispatcher
    does when the cancellation reaches the server (sections 3 and 4.B), and
    [forever] and [isAbortError] of abort-controller-x.  The request
    producer and the handler are those of [test('cancel')],
    clientStreaming.ts:308-379. *)
Module Cancellation.
Import ClientStreaming.

(** A deferred promise ([defer()]): the first [resolve] or [reject] settles
    it. *)
Inductive deferred :=
  | Pending
  | Fulfilled
  | Failed (err : thrown).

Definition resolve (d : deferred) : deferred :=
  match d with Pending => Fulfilled | _ => d end.

Definition reject (err : thrown) (d : deferred) : deferred :=
  match d with Pending => Failed err | _ => d end.

(** Modelled from the spec: [isAbortError(err)] of abort-controller-x. *)
Definition isAbortError (err : thrown) : bool :=
  match err with AbortError => true | _ => false end.

(** The generator [createRequest()], lines 341-356: where it is suspended.
    [i] is the value of its counter. *)
Inductive producer :=
  | Unstarted                       (* the body has not been entered *)
  | AtYield (i : nat)               (* suspended at [yield] *)
  | Asleep (i : nat)                (* awaiting the timer *)
  | AsleepReturning (i : nat)       (* awaiting the timer, [return()] queued *)
  | Closed (cleanup_ran : bool).    (* completed; did [finally] run? *)

(** A handler: that of the test, [testClientStream], lines 317-329, is
    suspended in [await forever(signal)] until it ends; another handler may
    be running or suspended on something that does not listen to its
    signal. *)
Inductive handler :=
  | NotCalled
  | AwaitingForever                 (* suspended in [await forever(signal)] *)
  | Busy                            (* not suspended on its signal *)
  | Ended (r : thrown + TestResponse).

Record World := mkWorld {
  (* the client *)
  external_signal : bool;                 (* [abortController.signal.aborted] *)
  outcome : option Settled;               (* [promise] *)
  transport_cancelled : bool;
  requests : producer;
  requestIterableFinish : deferred;
  (* the server *)
  server_signal : bool;
  server_finished : bool;
  testClientStream : handler;
  serverRequestStartDeferred : deferred;
  serverAbortDeferred : deferred
}.

(** [return()] on the producer.  A generator whose body was never entered
    completes without running anything; one suspended at [yield] runs its
    [finally] block, which resolves [requestIterableFinish]; one that is
    awaiting runs it when it next reaches [yield]. *)
Definition producer_return (w : World) : World :=
  match requests w with
  | Unstarted =>
      mkWorld (external_signal w) (outcome w) (transport_cancelled w)
        (Closed false) (requestIterableFinish w)
        (server_signal w) (server_finished w) (testClientStream w)
        (serverRequestStartDeferred w) (serverAbortDeferred w)
  | AtYield _ =>
      mkWorld (external_signal w) (outcome w) (transport_cancelled w)
        (Closed true) (resolve (requestIterableFinish w))
        (server_signal w) (server_finished w) (testClientStream w)
        (serverRequestStartDeferred w) (serverAbortDeferred w)
  | Asleep i =>
      mkWorld (external_signal w) (outcome w) (transport_cancelled w)
        (AsleepReturning i) (requestIterableFinish w)
        (server_signal w) (server_finished w) (testClientStream w)
        (serverRequestStartDeferred w) (serverAbortDeferred w)
  | AsleepReturning _ | Closed _ => w
  end.

(** The 50 ms timer of the producer elapses: it reaches its next [yield],
    where a queued [return()] takes effect. *)
Definition timer_fires (w : World) : World :=
  match requests w with
  | Asleep i =>
      mkWorld (external_signal w) (outcome w) (transport_cancelled w)
        (AtYield (S i)) (requestIterableFinish w)
        (server_signal w) (server_finished w) (testClientStream w)
        (serverRequestStartDeferred w) (serverAbortDeferred w)
  | AsleepReturning _ =>
      mkWorld (external_signal w) (outcome w) (transport_cancelled w)
        (Closed true) (resolve (requestIterableFinish w))
        (server_signal w) (server_finished w) (testClientStream w)
        (serverRequestStartDeferred w) (serverAbortDeferred w)
  | _ => w
  end.

(** Modelled from the spec: section 4.D, step 7.  If the external signal
    fires before the call has completed, the driver cancels the transport
    call, winds up the request sequence, and raises [AbortError] to the
    consumer. *)
Definition external_abort (w : World) : World :=
  let w1 :=
    mkWorld true (outcome w) (transport_cancelled w) (requests w)
      (requestIterableFinish w) (server_signal w) (server_finished w)
      (testClientStream w) (serverRequestStartDeferred w)
      (serverAbortDeferred w) in
  match outcome w with
  | Some _ => w1
  | None =>
      producer_return
        (mkWorld true (Some RejectedAbortError) true (requests w)
           (requestIterableFinish w) (server_signal w) (server_finished w)
           (testClientStream w) (serverRequestStartDeferred w)
           (serverAbortDeferred w))
  end.

(** The [catch] block of the handler, lines 322-328, run on the value
    [forever(signal)] rejects with. *)
Definition handler_catch (err : thrown) (w : World) : World :=
  mkWorld (external_signal w) (outcome w) (transport_cancelled w)
    (requests w) (requestIterableFinish w) (server_signal w) true
    (Ended (inl err)) (serverRequestStartDeferred w)
    (if isAbortError err then resolve (serverAbortDeferred w)
     else serverAbortDeferred w).

(** Modelled from the spec: the cancellation reaches the server.  The
    signal of the call fires, once; [forever(signal)] rejects with an
    [AbortError], thrown into the handler if that is where it is suspended;
    nothing more is sent to the peer. *)
Definition cancel_arrives (w : World) : World :=
  if transport_cancelled w && negb (server_signal w) then
    let w1 :=
      mkWorld (external_signal w) (outcome w) (transport_cancelled w)
        (requests w) (requestIterableFinish w) true (server_finished w)
        (testClientStream w) (serverRequestStartDeferred w)
        (serverAbortDeferred w) in
    match testClientStream w with
    | AwaitingForever => handler_catch AbortError w1
    | _ => w1
    end
  else w.

Inductive happening := ExternalAbort | CancelArrives | TimerFires.

#[global] Instance happening_eq_dec : EqDecision happening.
Proof. solve_decision. Defined.

Definition happen (w : World) (e : happening) : World :=
  match e with
  | ExternalAbort => external_abort w
  | CancelArrives => cancel_arrives w
  | TimerFires => timer_fires w
  end.

Definition play (es : list happening) (w : World) : World := foldl happen w es.

(** The producer has wound up and its [finally] block has run. *)
Definition cleaned_up (w : World) : Prop :=
  requests w = Closed true ∧ requestIterableFinish w = Fulfilled.

(** The handler was thrown a value that [isAbortError] recognises. *)
Definition server_saw_abort (w : World) : Prop :=
  server_signal w = true ∧ serverAbortDeferred w = Fulfilled ∧
  ∃ err, testClientStream w = Ended (inl err) ∧ isAbortError err = true.

(** The moment of the test at which [abortController.abort()] is called,
    line 364: the handler has started and waits, the producer has yielded
    [test-0] and sleeps. *)
Definition before_abort : World :=
  mkWorld false None false (Asleep 1) Pending false false AwaitingForever
    Fulfilled Pending.

(** A call on which the external signal fires before the driver has pulled
    the first request: the handler has started and waits, the body of the
    producer has not been entered. *)
Definition before_first_pull : World :=
  mkWorld false None false Unstarted Pending false false AwaitingForever
    Fulfilled Pending.

(** The statement of the specification for this scenario, word for word:
    the promise is rejected with an [AbortError], the cleanup of the request
    producer has run, and the handler has observed the abort. *)
Definition spec_cancel_outcome (w : World) : Prop :=
  outcome w = Some RejectedAbortError ∧ cleaned_up w ∧ server_saw_abort w.

(** Where the parts of a call stand once the external signal has fired on
    it, with [cancelled] and [woken] telling whether the cancellation has
    reached the server and whether the timer of the producer has elapsed
    since.  [d0] is the deferred of the part as it was when the signal
    fired. *)
Definition producer_winding (d0 : deferred) (cancelled woken : bool)
    (w : World) : Prop :=
  (requests w = Closed true ∧ requestIterableFinish w = resolve d0) ∨
  (woken = false ∧ requestIterableFinish w = d0 ∧
   ∃ i, requests w = AsleepReturning i).

Definition producer_skipped (d0 : deferred) (cancelled woken : bool)
    (w : World) : Prop :=
  requests w = Closed false ∧ requestIterableFinish w = d0.

Definition signal_reached (cancelled woken : bool) (w : World) : Prop :=
  transport_cancelled w = true ∧ (server_signal w = true ∨ cancelled = false).

Definition handler_thrown (d0 : deferred) (cancelled woken : bool)
    (w : World) : Prop :=
  transport_cancelled w = true ∧
  ((server_signal w = true ∧ testClientStream w = Ended (inl AbortError) ∧
    serverAbortDeferred w = resolve d0) ∨
   (cancelled = false ∧ server_signal w = false ∧
    testClientStream w = AwaitingForever ∧ serverAbortDeferred w = d0)).

Definition handler_left (h0 : handler) (cancelled woken : bool)
    (w : World) : Prop :=
  h0 ≠ AwaitingForever ∧ testClientStream w = h0.

End Cancellation.

(** The forwarding listener that captured [inner] is registered nowhere but
    on [outer]. *)
Definition only_on (outer inner : nat) (h : list AbortSignal) : Prop :=
  ∀ s sg, h !! s = Some sg → abortListener inner ∈ listeners sg → s = outer.

(** Going from [h] to [h'] registered the listener [l] nowhere. *)
Definition not_added (l : listener) (h h' : list AbortSignal) : Prop :=
  ∀ s sg', h' !! s = Some sg' → l ∈ listeners sg' →
    ∃ sg, h !! s = Some sg ∧ l ∈ listeners sg.

(** A call in flight next to an unrelated controller: the context signal is
    controller 0, the inner controller of the call is 1 and is registered,
    controller 2 belongs to nobody. *)
Definition registered_call : state :=
  mkState false [1]
    [mkSignal false [abortListener 1]; mkSignal false []; mkSignal false []]
    [mkContext 0 ∅; mkContext 1 {["abortOnTerminate" := VAbortOnTerminate 1]}].

(** Two calls in flight: the first (context signal 0, inner controller 1)
    has opted in, the second (context signal 2, inner controller 3) has
    not. *)
Definition two_calls : state :=
  mkState false [1]
    [mkSignal false [abortListener 1]; mkSignal false [];
     mkSignal false [abortListener 3]; mkSignal false []]
    [mkContext 0 ∅; mkContext 1 {["abortOnTerminate" := VAbortOnTerminate 1]};
     mkContext 2 ∅; mkContext 3 {["abortOnTerminate" := VAbortOnTerminate 3]}].

(** [h'] is a later heap than [h] as far as abort dispatch can tell: the same
    cells, the same listeners, and no flag has gone back. *)
Definition later_heap (h h' : list AbortSignal) : Prop :=
  length h' = length h ∧
  ∀ k sg, h !! k = Some sg →
    ∃ sg', h' !! k = Some sg' ∧ listeners sg' = listeners sg ∧
           (aborted sg = true → aborted sg' = true).

(** No [abortListener] anywhere in the heap captured the controller [k]. *)
Definition no_listener_to (k : nat) (h : list AbortSignal) : Prop :=
  ∀ s sg, h !! s = Some sg → abortListener k ∉ listeners sg.

(** With fuel [f], an abort that makes a signal fire also aborts what the
    forwarding listeners registered on that signal captured. *)
Definition cascades (f : nat) : Prop :=
  ∀ c h s t sg,
    pending h < f → h !! s = Some sg → aborted sg = false →
    abortListener t ∈ listeners sg → t < length h →
    is_aborted s (abort_n f c h) = true →
    is_aborted t (abort_n f c h) = true.

(** The controllers of [K] are closed under forwarding: a signal that carries
    a forwarding listener capturing a member of [K] is itself in [K]. *)
Definition closed_under_forwarding (K : nat → Prop) (h : list AbortSignal)
  : Prop :=
  ∀ s sg k, h !! s = Some sg → abortListener k ∈ listeners sg → K k → K s.

(** Nothing has reached the controllers of [K]: they exist, none is in the
    set, none has fired, and no signal outside [K] forwards to them. *)
Definition undisturbed (K : nat → Prop) (st : state) : Prop :=
  (∀ k, K k →
     k < length (signals st) ∧ (k ∉ abortControllers st) ∧
     is_aborted k (signals st) = false) ∧
  closed_under_forwarding K (signals st).

(** The event is neither [k.abort()] nor the [abortOnTerminate()] of the
    call whose controller is [k]. *)
Definition spares (k : nat) (ev : event) : Prop :=
  ev ≠ EvAbort k ∧ ev ≠ EvAbortOnTerminate k.

(** Where a call stands once it has opted in (when [A] holds): its inner
    signal has fired, or [terminate()] has not run and the controller is in
    the set. *)
Definition opted (inner : nat) (A : Prop) (st : state) : Prop :=
  inner < length (signals st) ∧
  (A → is_aborted inner (signals st) = true ∨
       (terminated st = false ∧ inner ∈ abortControllers st)).

(** A handler whose effect on the state is that of the events [evs], which
    yields [yielded] and ends with [c]. *)
Definition scripted (evs : list event) (yielded : list string)
    (c : completion string) : ServerMiddlewareCall string string :=
  mkCall "test" (λ _ _ st, (yielded, c, run evs st)).

(** * Properties of the runtime model *)

Section Heap.
Implicit Types h : list AbortSignal.
Implicit Types c k s t : nat.

Lemma later_heap_refl h : later_heap h h.
Proof. split; [done|]. intros k sg Hk. by exists sg. Qed.

Lemma later_heap_trans h1 h2 h3 :
  later_heap h1 h2 → later_heap h2 h3 → later_heap h1 h3.
Proof.
  intros [L12 H12] [L23 H23]. split; [congruence|].
  intros k sg Hk.
  destruct (H12 k sg Hk) as (sg2 & Hk2 & Hl2 & Ha2).
  destruct (H23 k sg2 Hk2) as (sg3 & Hk3 & Hl3 & Ha3).
  exists sg3. split; [done|]. split; [congruence|auto].
Qed.

Lemma later_heap_mark h c sg :
  h !! c = Some sg → later_heap h (<[c := mkSignal true (listeners sg)]> h).
Proof.
  intros Hc. split; [by rewrite length_insert|].
  intros k sg0 Hk. destruct (decide (k = c)) as [->|Hne].
  - rewrite list_lookup_insert_eq; [|by eapply lookup_lt_Some].
    eexists. split; [done|]. simpl. split; [congruence|done].
  - rewrite list_lookup_insert_ne; [|done]. by exists sg0.
Qed.

Lemma later_heap_aborted h h' k :
  later_heap h h' → is_aborted k h = true → is_aborted k h' = true.
Proof.
  intros [_ H]. unfold is_aborted. destruct (h !! k) as [sg|] eqn:Hk; [|done].
  intros Ha. destruct (H k sg Hk) as (sg' & -> & _ & Hab). auto.
Qed.

Lemma later_heap_listeners h h' k sg :
  later_heap h h' → h !! k = Some sg →
  ∃ sg', h' !! k = Some sg' ∧ listeners sg' = listeners sg.
Proof.
  intros [_ H] Hk. destruct (H k sg Hk) as (sg' & ? & ? & _). eauto.
Qed.

Lemma fold_later_heap (g : nat → list AbortSignal → list AbortSignal) ls :
  (∀ c h, later_heap h (g c h)) →
  ∀ h, later_heap h (foldl (run_listener g) h ls).
Proof.
  intros Hg. induction ls as [|l ls IH]; intros h; simpl.
  - apply later_heap_refl.
  - eapply later_heap_trans; [|apply IH].
    destruct l; simpl; [apply Hg|apply later_heap_refl].
Qed.

Lemma abort_n_later fuel : ∀ c h, later_heap h (abort_n fuel c h).
Proof.
  induction fuel as [|fuel IH]; intros c h; simpl.
  - apply later_heap_refl.
  - destruct (h !! c) as [sg|] eqn:Hc; [|apply later_heap_refl].
    destruct (aborted sg); [apply later_heap_refl|].
    eapply later_heap_trans; [by apply later_heap_mark|].
    by apply fold_later_heap.
Qed.

Lemma abort_later c h : later_heap h (abort c h).
Proof. apply abort_n_later. Qed.

Lemma abort_length c h : length (abort c h) = length h.
Proof. apply abort_later. Qed.

(** [signal.aborted] is latched: an abort never clears a flag. *)
Lemma abort_mono c h k :
  is_aborted k h = true → is_aborted k (abort c h) = true.
Proof. apply later_heap_aborted, abort_later. Qed.

(** After [c.abort()] the signal of [c] has fired. *)
Lemma abort_n_self fuel c h :
  c < length h → is_aborted c (abort_n (S fuel) c h) = true.
Proof.
  intros Hlt. destruct (lookup_lt_is_Some_2 h c Hlt) as [sg Hc].
  simpl. rewrite Hc. destruct (aborted sg) eqn:Ha.
  - unfold is_aborted. by rewrite Hc.
  - eapply later_heap_aborted.
    + apply fold_later_heap, abort_n_later.
    + unfold is_aborted. rewrite list_lookup_insert_eq; [done|].
      by eapply lookup_lt_Some.
Qed.

Lemma abort_self c h : c < length h → is_aborted c (abort c h) = true.
Proof. apply abort_n_self. Qed.

(** Aborting a signal that has already fired changes nothing. *)
Lemma abort_n_already fuel c h :
  is_aborted c h = true → abort_n fuel c h = h.
Proof.
  unfold is_aborted. destruct fuel as [|fuel]; [done|]. simpl.
  destruct (h !! c) as [sg|]; [|done]. by intros ->.
Qed.
End Heap.

(** ** The bound on the recursion of [abort] *)

Section Fuel.
Implicit Types h : list AbortSignal.

Lemma pending_cons sg h :
  pending (sg :: h) = (if aborted sg then 0 else 1) + pending h.
Proof.
  unfold pending. rewrite filter_cons.
  destruct (aborted sg); case_decide; simpl; congruence.
Qed.

Lemma pending_le_length h : pending h ≤ length h.
Proof. unfold pending. apply length_filter. Qed.

Lemma pending_mark h c sg :
  h !! c = Some sg → aborted sg = false →
  S (pending (<[c := mkSignal true (listeners sg)]> h)) = pending h.
Proof.
  revert c. induction h as [|x h IH]; intros c Hc Ha; [done|].
  destruct c as [|c]; simpl in *.
  - injection Hc as ->. rewrite !pending_cons, Ha. simpl. lia.
  - rewrite !pending_cons. rewrite <- (IH c Hc Ha). lia.
Qed.

Lemma later_heap_pending h h' : later_heap h h' → pending h' ≤ pending h.
Proof.
  revert h'. induction h as [|x h IH]; intros h' [Hlen H].
  - destruct h'; [done|discriminate].
  - destruct h' as [|x' h']; [discriminate|].
    rewrite !pending_cons.
    assert (pending h' ≤ pending h) as Hle.
    { apply IH. split; [simpl in Hlen; lia|].
      intros k sg Hk. apply (H (S k) sg Hk). }
    destruct (H 0 x eq_refl) as (sg' & Hx' & _ & Hab).
    injection Hx' as <-.
    destruct (aborted x); [rewrite Hab by done|destruct (aborted x')];
      simpl; lia.
Qed.

Lemma fold_enough f ls :
  (∀ c h, pending h < f → abort_n f c h = abort_n (S f) c h) →
  ∀ h, pending h < f →
    foldl (run_listener (abort_n f)) h ls
    = foldl (run_listener (abort_n (S f))) h ls.
Proof.
  intros Hf. induction ls as [|l ls IH]; intros h Hp; [done|].
  cbn [foldl]. destruct l as [c|tag]; cbn [run_listener].
  - rewrite <- (Hf c h Hp). apply IH.
    pose proof (later_heap_pending _ _ (abort_n_later f c h)). lia.
  - by apply IH.
Qed.

(** One more unit of fuel changes nothing once the fuel exceeds the number
    of signals that have not fired: the recursion of [abort_n] never runs
    out. *)
Lemma abort_n_enough f : ∀ c h,
  pending h < f → abort_n f c h = abort_n (S f) c h.
Proof.
  induction f as [|f IH]; intros c h Hp; [lia|].
  change (abort_n (S (S f)) c h) with
    (match h !! c with
     | Some sg =>
         if aborted sg then h
         else foldl (run_listener (abort_n (S f)))
                (<[c := mkSignal true (listeners sg)]> h) (listeners sg)
     | None => h
     end).
  cbn [abort_n]. destruct (h !! c) as [sg|] eqn:Hc; [|done].
  destruct (aborted sg) eqn:Ha; [done|].
  apply fold_enough; [exact IH|].
  pose proof (pending_mark h c sg Hc Ha). lia.
Qed.

Lemma abort_n_stable f g c h :
  pending h < f → f ≤ g → abort_n g c h = abort_n f c h.
Proof.
  intros Hp Hle. induction Hle as [|g Hle IH]; [done|].
  rewrite <- IH. symmetry. apply abort_n_enough. lia.
Qed.

Lemma abort_fuel f c h : pending h < f → abort_n f c h = abort c h.
Proof.
  intros Hp. pose proof (pending_le_length h) as Hl.
  destruct (decide (f ≤ S (length h))).
  - symmetry. by apply abort_n_stable.
  - apply abort_n_stable; lia.
Qed.
End Fuel.

(** ** Abort dispatch reaches the listeners *)

Section Cascade.
Implicit Types h : list AbortSignal.

Lemma fold_hits f ls : ∀ h t,
  0 < f → abortListener t ∈ ls → t < length h →
  is_aborted t (foldl (run_listener (abort_n f)) h ls) = true.
Proof.
  induction ls as [|l ls IH]; intros h t Hf Hin Hlt.
  - by apply elem_of_nil in Hin.
  - cbn [foldl]. apply elem_of_cons in Hin as [<-|Hin].
    + cbn [run_listener]. eapply later_heap_aborted.
      * apply fold_later_heap, abort_n_later.
      * destruct f as [|f]; [lia|]. by apply abort_n_self.
    + apply IH; [done..|].
      destruct l; cbn [run_listener]; [|done].
      by rewrite (proj1 (abort_n_later f _ h)).
Qed.

Lemma fold_cascade f ls : cascades f →
  ∀ h s t sg,
    pending h < f → h !! s = Some sg → aborted sg = false →
    abortListener t ∈ listeners sg → t < length h →
    is_aborted s (foldl (run_listener (abort_n f)) h ls) = true →
    is_aborted t (foldl (run_listener (abort_n f)) h ls) = true.
Proof.
  intros Hcas. induction ls as [|l ls IH]; intros h s t sg Hp Hs Ha Hin Hlt.
  - cbn [foldl]. unfold is_aborted at 1. rewrite Hs. congruence.
  - cbn [foldl]. set (h' := run_listener (abort_n f) h l).
    assert (later_heap h h') as Hlater.
    { subst h'. destruct l; cbn [run_listener];
        [apply abort_n_later|apply later_heap_refl]. }
    destruct (later_heap_listeners _ _ _ _ Hlater Hs) as (sg' & Hs' & Hl').
    destruct (aborted sg') eqn:Ha'.
    + intros _. eapply later_heap_aborted;
        [apply fold_later_heap, abort_n_later|].
      destruct l as [c|tag]; subst h'; cbn [run_listener] in *.
      * apply (Hcas c h s t sg); try done.
        unfold is_aborted. by rewrite Hs'.
      * congruence.
    + apply (IH h' s t sg'); try done.
      * pose proof (later_heap_pending _ _ Hlater). lia.
      * by rewrite Hl'.
      * by rewrite (proj1 Hlater).
Qed.

Lemma abort_n_cascade f : cascades f.
Proof.
  induction f as [|f IH]; intros c h s t sg Hp Hs Ha Hin Hlt; [lia|].
  cbn [abort_n]. destruct (h !! c) as [sgc|] eqn:Hc; cycle 1.
  { unfold is_aborted at 1. rewrite Hs. congruence. }
  destruct (aborted sgc) eqn:Hac.
  { unfold is_aborted at 1. rewrite Hs. congruence. }
  pose proof (pending_mark h c sgc Hc Hac) as Hpm.
  destruct (decide (s = c)) as [->|Hne].
  - intros _. assert (sg = sgc) as -> by congruence.
    apply fold_hits; [lia|done|by rewrite length_insert].
  - apply (fold_cascade f _ IH _ s t sg); try done.
    + lia.
    + by rewrite list_lookup_insert_ne.
    + by rewrite length_insert.
Qed.

(** If [c.abort()] makes a signal [s] fire, every controller that an
    [abortListener] registered on [s] captured is aborted as well. *)
Lemma abort_cascade c h s t sg :
  h !! s = Some sg → aborted sg = false →
  abortListener t ∈ listeners sg → t < length h →
  is_aborted s (abort c h) = true → is_aborted t (abort c h) = true.
Proof.
  apply abort_n_cascade. pose proof (pending_le_length h). lia.
Qed.
End Cascade.

(** ** What an abort leaves alone *)

Section Frame.
Implicit Types h : list AbortSignal.

Lemma later_heap_no_listener h h' k :
  later_heap h h' → no_listener_to k h → no_listener_to k h'.
Proof.
  intros Hl Hno s sg' Hs'.
  assert (s < length h) as Hlt.
  { rewrite <- (proj1 Hl). by eapply lookup_lt_Some. }
  destruct (lookup_lt_is_Some_2 h s Hlt) as [sg Hs].
  destruct (later_heap_listeners _ _ _ _ Hl Hs) as (sg'' & Hs'' & Heq).
  assert (sg'' = sg') as -> by congruence.
  rewrite Heq. by eapply Hno.
Qed.

Lemma fold_untouched f k ls :
  (∀ c h, k ≠ c → no_listener_to k h → abort_n f c h !! k = h !! k) →
  ∀ h, Forall (λ l, l ≠ abortListener k) ls → no_listener_to k h →
    foldl (run_listener (abort_n f)) h ls !! k = h !! k.
Proof.
  intros Hf. induction ls as [|l ls IHls]; intros h Hls Hno; [done|].
  cbn [foldl]. apply Forall_cons in Hls as [Hl Hls].
  destruct l as [c'|tag]; cbn [run_listener].
  - etrans.
    + apply IHls; [done|].
      eapply later_heap_no_listener; [apply abort_n_later|done].
    + apply Hf; [congruence|done].
  - by apply IHls.
Qed.

Lemma abort_n_untouched fuel : ∀ c h k,
  k ≠ c → no_listener_to k h → abort_n fuel c h !! k = h !! k.
Proof.
  induction fuel as [|fuel IH]; intros c h k Hne Hno; [done|].
  cbn [abort_n]. destruct (h !! c) as [sg|] eqn:Hc; [|done].
  destruct (aborted sg); [done|].
  rewrite fold_untouched.
  - by rewrite list_lookup_insert_ne.
  - intros c' h' ??. by apply IH.
  - apply Forall_forall. intros l Hl ->. by eapply Hno.
  - eapply later_heap_no_listener; [by apply later_heap_mark|done].
Qed.

Lemma abort_untouched c h k :
  k ≠ c → no_listener_to k h → abort c h !! k = h !! k.
Proof. apply abort_n_untouched. Qed.

(** Aborting a controller nobody listens to sets its flag and nothing
    else. *)
Lemma abort_no_listeners c h sg :
  h !! c = Some sg → listeners sg = [] →
  abort c h = if aborted sg then h else <[c := mkSignal true []]> h.
Proof.
  intros Hc Hl. unfold abort. cbn [abort_n]. rewrite Hc, Hl.
  by destruct (aborted sg).
Qed.
End Frame.

(** ** The controller set *)

Section ControllerSet.
Implicit Types s : list nat.

Lemma Set_add_elem x s : x ∈ Set_add x s.
Proof.
  unfold Set_add. case_decide; [done|]. apply elem_of_app. right.
  by apply list_elem_of_singleton.
Qed.

Lemma Set_add_again x s : x ∈ s → Set_add x s = s.
Proof. intros Hx. unfold Set_add. by rewrite decide_True. Qed.

Lemma Set_add_NoDup x s : NoDup s → NoDup (Set_add x s).
Proof.
  intros Hnd. unfold Set_add. case_decide; [done|].
  apply NoDup_app. split; [done|]. split; [|apply NoDup_singleton].
  intros y Hy Hy'. apply list_elem_of_singleton in Hy' as ->. done.
Qed.

Lemma Set_delete_NoDup x s : NoDup s → NoDup (Set_delete x s).
Proof. apply NoDup_filter. Qed.

Lemma Set_delete_gone x s : x ∉ Set_delete x s.
Proof.
  unfold Set_delete. intros Hx. apply list_elem_of_filter in Hx as [Hx _].
  done.
Qed.

(** In a list without duplicates a member occurs exactly once. *)
Lemma NoDup_occurs_once x s :
  NoDup s → x ∈ s → length (filter (λ y, y = x) s) = 1.
Proof.
  induction 1 as [|y s Hy Hnd IH]; intros Hx.
  - by apply elem_of_nil in Hx.
  - rewrite filter_cons. case_decide as Hyx.
    + subst y. simpl. f_equal.
      rewrite (elem_of_nil_inv (filter (λ z, z = x) s)); [done|].
      intros z Hz. apply list_elem_of_filter in Hz as [-> Hz]. done.
    + apply IH. apply elem_of_cons in Hx as [->|Hx]; done.
Qed.
End ControllerSet.

(** * The terminator middleware *)

Section Terminator.
Context {Request Response : Type}.
Implicit Types call : ServerMiddlewareCall Request Response.
Implicit Types st : state.

Lemma mw_enter_frame context st :
  (mw_enter context st).1.1 = mkFrame context (length (signals st)).
Proof. done. Qed.

Lemma terminatorMiddleware_unfold call context st f context' st1 yielded c st2 :
  mw_enter context st = (f, context', st1) →
  next call (request call) context' st1 = (yielded, c, st2) →
  terminatorMiddleware call context st =
    (yielded,
     match c with Threw err => Threw (mw_catch f err st2) | _ => c end,
     mw_finally f st2).
Proof. intros He Hn. unfold terminatorMiddleware. by rewrite He, Hn. Qed.

(** C1.  When the rest of the chain throws [err]: if at that moment the
    inner signal has fired and the signal of the outer context has not, the
    middleware throws [ServerError(UNAVAILABLE, "Server shutting down")]
    instead; in every other case it throws [err] itself. *)
Theorem terminator_error_mapping call context st f context' st1 yielded err st2 :
  mw_enter context st = (f, context', st1) →
  next call (request call) context' st1 = (yielded, Threw err, st2) →
  let inner_fired := is_aborted (innerAbortController f) (signals st2) in
  let outer_fired := is_aborted (context_signal context st2) (signals st2) in
  (inner_fired = true ∧ outer_fired = false →
     (terminatorMiddleware call context st).1.2
     = Threw (ServerError UNAVAILABLE "Server shutting down")) ∧
  (¬ (inner_fired = true ∧ outer_fired = false) →
     (terminatorMiddleware call context st).1.2 = Threw err).
Proof.
  intros He Hn inner_fired outer_fired.
  rewrite (terminatorMiddleware_unfold _ _ _ _ _ _ _ _ _ He Hn). cbn.
  assert (frame_context f = context) as Hf.
  { unfold mw_enter in He. cbn in He. by injection He as <- _ _. }
  unfold mw_catch. rewrite Hf. fold inner_fired outer_fired.
  split.
  - intros [-> ->]. done.
  - intros Hnot. destruct inner_fired, outer_fired; try done.
    by destruct Hnot.
Qed.

(** C4.  Whatever way the rest of the chain ends (it returns, it throws, or
    the consumer stops it early), once the middleware is done the inner
    controller is not in the set and the forwarding listener is not
    registered on the signal of the outer context. *)
Theorem terminator_cleanup call context st f context' st1 yielded c st2 :
  mw_enter context st = (f, context', st1) →
  next call (request call) context' st1 = (yielded, c, st2) →
  let st' := (terminatorMiddleware call context st).2 in
  (innerAbortController f ∉ abortControllers st') ∧
  ¬ registered (abortListener (innerAbortController f))
      (context_signal context st') (signals st').
Proof.
  intros He Hn.
  rewrite (terminatorMiddleware_unfold _ _ _ _ _ _ _ _ _ He Hn). cbn.
  assert (frame_context f = context) as Hf.
  { unfold mw_enter in He. cbn in He. by injection He as <- _ _. }
  split; [apply Set_delete_gone|].
  unfold context_signal. cbn. rewrite Hf.
  fold (context_signal context st2).
  intros (sg & Hsg & Hin). unfold removeEventListener in Hsg.
  destruct (signals st2 !! context_signal context st2) as [sg0|] eqn:H0.
  - rewrite list_lookup_insert_eq in Hsg by (by eapply lookup_lt_Some).
    injection Hsg as <-. cbn in Hin.
    apply list_elem_of_filter in Hin as [Hne _]. done.
  - congruence.
Qed.

(** C10.  The middleware leaves every object that existed when it was
    entered as it found it, the outer context among them, whenever the rest
    of the chain does: what it hands to [call.next] is a new object, a copy
    of the outer context in which [signal] is the inner signal and
    [abortOnTerminate] is set, and nothing else differs. *)
Theorem terminator_context_untouched call context st ctx f context' st1
    yielded c st2 :
  objects st !! context = Some ctx →
  mw_enter context st = (f, context', st1) →
  next call (request call) context' st1 = (yielded, c, st2) →
  objects st2 !! context = objects st1 !! context →
  let st' := (terminatorMiddleware call context st).2 in
  objects st' !! context = Some ctx ∧
  context' ≠ context ∧
  objects st !! context' = None ∧
  (∃ ctx', objects st1 !! context' = Some ctx' ∧
     signal ctx' = innerAbortController f ∧
     props ctx' !! "abortOnTerminate"
       = Some (VAbortOnTerminate (innerAbortController f)) ∧
     ∀ k, k ≠ "abortOnTerminate" → props ctx' !! k = props ctx !! k) ∧
  props ctx !! "abortOnTerminate"
    = props (objects st' !!! context) !! "abortOnTerminate".
Proof.
  intros Hctx He Hn Hframe.
  rewrite (terminatorMiddleware_unfold _ _ _ _ _ _ _ _ _ He Hn). cbn.
  unfold mw_enter in He. cbn in He. injection He as <- <- <-.
  cbn in *. pose proof (lookup_lt_Some _ _ _ Hctx) as Hlt.
  rewrite lookup_app_l in Hframe by done.
  assert (objects st2 !! context = Some ctx) as H2 by congruence.
  split; [done|]. split; [lia|].
  split; [by apply lookup_ge_None_2|]. split.
  - eexists. split; [by rewrite lookup_app_r, Nat.sub_diag|].
    cbn. split; [done|]. split; [by rewrite lookup_insert_eq|].
    intros k Hk. rewrite lookup_insert_ne by done.
    by rewrite (list_lookup_total_correct _ _ _ Hctx).
  - by rewrite (list_lookup_total_correct _ _ _ H2).
Qed.
End Terminator.

(** ** [terminate()] and [abortOnTerminate()] *)

Section Registry.
Implicit Types st : state.

Lemma fold_abort_later cs : ∀ h,
  later_heap h (foldl (λ h c, abort c h) h cs).
Proof.
  induction cs as [|c cs IH]; intros h; cbn [foldl].
  - apply later_heap_refl.
  - eapply later_heap_trans; [apply abort_later|apply IH].
Qed.

Lemma fold_abort_all cs : ∀ h c,
  c ∈ cs → c < length h →
  is_aborted c (foldl (λ h c, abort c h) h cs) = true.
Proof.
  induction cs as [|c0 cs IH]; intros h c Hin Hlt.
  - by apply elem_of_nil in Hin.
  - cbn [foldl]. apply elem_of_cons in Hin as [->|Hin].
    + eapply later_heap_aborted; [apply fold_abort_later|].
      by apply abort_self.
    + apply IH; [done|]. by rewrite abort_length.
Qed.

Lemma fold_abort_untouched cs : ∀ h k,
  k ∉ cs → no_listener_to k h →
  foldl (λ h c, abort c h) h cs !! k = h !! k.
Proof.
  induction cs as [|c0 cs IH]; intros h k Hin Hno; [done|].
  cbn [foldl]. apply not_elem_of_cons in Hin as [Hne Hin].
  rewrite IH; [by apply abort_untouched|done|].
  eapply later_heap_no_listener; [apply abort_later|done].
Qed.

Lemma terminate_terminated st : terminated (terminate st) = true.
Proof. unfold terminate. by destruct (terminated st) eqn:?. Qed.

Lemma terminate_again st : terminated st = true → terminate st = st.
Proof. intros H. unfold terminate. by rewrite H. Qed.

(** [terminated] is never reset. *)
Lemma step_terminated st ev :
  terminated st = true → terminated (step st ev) = true.
Proof.
  intros H. destruct ev; cbn; try done.
  - unfold abortOnTerminate. by rewrite H.
  - by rewrite terminate_again.
Qed.

Lemma run_terminated evs : ∀ st,
  terminated st = true → terminated (run evs st) = true.
Proof.
  induction evs as [|ev evs IH]; intros st H; [done|].
  apply IH. by apply step_terminated.
Qed.

Lemma step_sealed st ev : sealed st → sealed (step st ev).
Proof.
  intros [Ht Hs]. split; [by apply step_terminated|].
  destruct ev; cbn; try done.
  - unfold abortOnTerminate. by rewrite Ht.
  - by rewrite Hs.
  - by rewrite terminate_again.
Qed.

Lemma run_sealed evs : ∀ st, sealed st → sealed (run evs st).
Proof.
  induction evs as [|ev evs IH]; intros st H; [done|].
  apply IH. by apply step_sealed.
Qed.

Lemma terminate_sealed st : terminated st = false → sealed (terminate st).
Proof. intros H. unfold terminate. by rewrite H. Qed.

(** The set never holds a controller twice. *)
Lemma step_NoDup st ev :
  NoDup (abortControllers st) → NoDup (abortControllers (step st ev)).
Proof.
  intros H. destruct ev; cbn; try done.
  - unfold abortOnTerminate. destruct (terminated st); cbn; [done|].
    by apply Set_add_NoDup.
  - by apply Set_delete_NoDup.
  - unfold terminate. destruct (terminated st); [done|]. apply NoDup_nil_2.
Qed.

Lemma run_NoDup evs : ∀ st,
  NoDup (abortControllers st) → NoDup (abortControllers (run evs st)).
Proof.
  induction evs as [|ev evs IH]; intros st H; [done|].
  apply IH. by apply step_NoDup.
Qed.

(** C3.  From the first [terminate()] on, whatever happens next, the set
    stays empty; an [abortOnTerminate()] invoked then does not register the
    controller and aborts it on the spot. *)
Theorem no_registration_after_terminate st evs inner :
  terminated st = false →
  let st1 := run evs (terminate st) in
  inner < length (signals st1) →
  abortControllers st1 = [] ∧
  abortControllers (abortOnTerminate inner st1) = [] ∧
  is_aborted inner (signals (abortOnTerminate inner st1)) = true.
Proof.
  intros Ht st1 Hlt.
  destruct (run_sealed evs _ (terminate_sealed st Ht)) as [Ht1 Hs1].
  fold st1 in Ht1, Hs1. split; [done|].
  unfold abortOnTerminate. rewrite Ht1. cbn.
  split; [done|]. by apply abort_self.
Qed.

(** C8.  Before [terminate()], invoking [abortOnTerminate()] of one call
    any number of times does what invoking it once does: the set holds the
    controller of the call exactly once and no controller twice. *)
Theorem abortOnTerminate_idempotent st inner n :
  NoDup (abortControllers st) → terminated st = false → 0 < n →
  let st' := Nat.iter n (abortOnTerminate inner) st in
  st' = abortOnTerminate inner st ∧
  length (filter (λ c, c = inner) (abortControllers st')) = 1 ∧
  NoDup (abortControllers st').
Proof.
  intros Hnd Ht Hn st'.
  assert (st' = abortOnTerminate inner st) as ->.
  { subst st'. destruct n as [|n]; [lia|]. clear Hn.
    induction n as [|n IH]; [done|].
    change (Nat.iter (S (S n)) (abortOnTerminate inner) st)
      with (abortOnTerminate inner (Nat.iter (S n) (abortOnTerminate inner) st)).
    rewrite IH. unfold abortOnTerminate. rewrite Ht. cbn. rewrite Ht. cbn.
    unfold set_abortControllers. cbn.
    by rewrite (Set_add_again inner (Set_add _ _)) by apply Set_add_elem. }
  split; [done|]. unfold abortOnTerminate. rewrite Ht. cbn.
  split; [|by apply Set_add_NoDup].
  apply NoDup_occurs_once; [by apply Set_add_NoDup|apply Set_add_elem].
Qed.
End Registry.

(** ** Forwarding of the outer abort while a call is in flight *)

Section Forwarding.
Implicit Types h : list AbortSignal.
Implicit Types st : state.

Lemma forwards_later outer inner h h' :
  later_heap h h' →
  (∀ sg, h !! outer = Some sg → aborted sg = false →
     is_aborted outer h' = true → is_aborted inner h' = true) →
  forwards outer inner h → forwards outer inner h'.
Proof.
  intros Hl Hnew (sg & Hs & Hin & Hlt & Hab).
  destruct (proj2 Hl outer sg Hs) as (sg' & Hs' & Hls & _).
  exists sg'. split; [done|]. split; [by rewrite Hls|].
  split; [by rewrite (proj1 Hl)|]. intros Ha'.
  destruct (aborted sg) eqn:Ha.
  - eapply later_heap_aborted; [done|]. by apply Hab.
  - apply (Hnew sg Hs Ha). unfold is_aborted. by rewrite Hs'.
Qed.

Lemma forwards_abort outer inner c h :
  forwards outer inner h → forwards outer inner (abort c h).
Proof.
  intros Hf. eapply forwards_later; [apply abort_later| |done].
  destruct Hf as (sg & Hs & Hin & Hlt & _).
  intros sg0 Hs0 Ha0. assert (sg0 = sg) as -> by congruence.
  by eapply abort_cascade.
Qed.

Lemma forwards_fold_abort outer inner cs : ∀ h,
  forwards outer inner h →
  forwards outer inner (foldl (λ h c, abort c h) h cs).
Proof.
  induction cs as [|c cs IH]; intros h Hf; [done|].
  cbn [foldl]. by apply IH, forwards_abort.
Qed.

Lemma is_aborted_insert h s k a ls sg :
  h !! s = Some sg → a = aborted sg →
  is_aborted k (<[s := mkSignal a ls]> h) = is_aborted k h.
Proof.
  intros Hs ->. unfold is_aborted. destruct (decide (k = s)) as [->|Hne].
  - rewrite list_lookup_insert_eq by (by eapply lookup_lt_Some).
    by rewrite Hs.
  - by rewrite list_lookup_insert_ne.
Qed.

Lemma forwards_add outer inner s l h :
  forwards outer inner h → forwards outer inner (addEventListener s l h).
Proof.
  intros (sg & Hs & Hin & Hlt & Hab). unfold addEventListener.
  destruct (h !! s) as [sg0|] eqn:H0; [|by exists sg].
  case_decide; [by exists sg|].
  destruct (decide (outer = s)) as [->|Hne].
  - assert (sg0 = sg) as -> by congruence.
    eexists. rewrite list_lookup_insert_eq by (by eapply lookup_lt_Some).
    split; [done|]. cbn. split; [apply elem_of_app; by left|].
    rewrite length_insert. split; [done|].
    by rewrite (is_aborted_insert h s inner _ _ sg).
  - exists sg. rewrite list_lookup_insert_ne by done. split; [done|].
    split; [done|]. rewrite length_insert. split; [done|].
    by rewrite (is_aborted_insert h s inner _ _ sg0).
Qed.

Lemma forwards_remove outer inner s inner' h :
  inner' ≠ inner →
  forwards outer inner h →
  forwards outer inner (removeEventListener s (abortListener inner') h).
Proof.
  intros Hi (sg & Hs & Hin & Hlt & Hab). unfold removeEventListener.
  destruct (h !! s) as [sg0|] eqn:H0; [|by exists sg].
  destruct (decide (outer = s)) as [->|Hne].
  - assert (sg0 = sg) as -> by congruence.
    eexists. rewrite list_lookup_insert_eq by (by eapply lookup_lt_Some).
    split; [done|]. cbn. split.
    { apply list_elem_of_filter. split; [congruence|done]. }
    rewrite length_insert. split; [done|].
    by rewrite (is_aborted_insert h s inner _ _ sg).
  - exists sg. rewrite list_lookup_insert_ne by done. split; [done|].
    split; [done|]. rewrite length_insert. split; [done|].
    by rewrite (is_aborted_insert h s inner _ _ sg0).
Qed.

Lemma forwards_new outer inner h :
  forwards outer inner h →
  forwards outer inner (new_AbortController h).2.
Proof.
  intros (sg & Hs & Hin & Hlt & Hab). exists sg. cbn.
  rewrite lookup_app_l by (by eapply lookup_lt_Some).
  split; [done|]. split; [done|]. rewrite length_app. split; [lia|].
  unfold is_aborted. by rewrite lookup_app_l.
Qed.

(** No event other than the exit of the call itself breaks the
    forwarding. *)
Lemma step_forwards outer inner st ev :
  (∀ f, ev = EvExit f → innerAbortController f ≠ inner) →
  forwards outer inner (signals st) →
  forwards outer inner (signals (step st ev)).
Proof.
  intros Hev Hf. destruct ev; cbn.
  - by apply forwards_add, forwards_new.
  - unfold abortOnTerminate. destruct (terminated st); cbn; [|done].
    by apply forwards_abort.
  - apply forwards_remove; [|done]. by apply Hev.
  - unfold terminate. destruct (terminated st); cbn; [done|].
    by apply forwards_fold_abort.
  - by apply forwards_abort.
  - by apply forwards_new.
  - done.
  - by apply forwards_add.
Qed.

Lemma run_forwards outer inner evs : ∀ st,
  (∀ f, EvExit f ∈ evs → innerAbortController f ≠ inner) →
  forwards outer inner (signals st) →
  forwards outer inner (signals (run evs st)).
Proof.
  induction evs as [|ev evs IH]; intros st Hevs Hf; [done|].
  apply IH.
  - intros f Hin. apply Hevs. by apply elem_of_cons; right.
  - apply step_forwards; [|done]. intros f ->. apply Hevs.
    by apply elem_of_cons; left.
Qed.

(** Entering the middleware on a context whose signal has not fired puts
    the forwarding in place. *)
Lemma mw_enter_forwards context st ctx :
  objects st !! context = Some ctx →
  signal ctx < length (signals st) →
  is_aborted (signal ctx) (signals st) = false →
  forwards (signal ctx) (length (signals st))
    (signals (mw_enter context st).2).
Proof.
  intros Hctx Hlt Hna. cbn. unfold context_signal.
  rewrite (list_lookup_total_correct _ _ _ Hctx).
  destruct (lookup_lt_is_Some_2 _ _ Hlt) as [sg Hs].
  unfold addEventListener. rewrite lookup_app_l, Hs by done.
  unfold is_aborted in Hna. rewrite Hs in Hna.
  case_decide as Hin.
  - exists sg. rewrite lookup_app_l by done.
    split; [done|]. split; [done|]. rewrite length_app. cbn.
    split; [lia|]. congruence.
  - eexists. rewrite list_lookup_insert_eq
      by (rewrite length_app; cbn; lia).
    split; [done|]. cbn.
    split; [apply elem_of_app; right; by apply list_elem_of_singleton|].
    rewrite length_insert, length_app. cbn. split; [lia|]. congruence.
Qed.

(** X1.  While a call is in flight (its own exit has not happened), if the
    signal of its context had not fired when the call entered the
    middleware and has fired since, then the inner signal has fired too,
    whatever else happened: other calls entering and leaving,
    [abortOnTerminate()], [terminate()], aborts of any controller. *)
Lemma outer_abort_reaches_inner context st ctx evs :
  objects st !! context = Some ctx →
  signal ctx < length (signals st) →
  is_aborted (signal ctx) (signals st) = false →
  (∀ f, EvExit f ∈ evs → innerAbortController f ≠ length (signals st)) →
  let st2 := run evs (mw_enter context st).2 in
  is_aborted (signal ctx) (signals st2) = true →
  is_aborted (length (signals st)) (signals st2) = true.
Proof.
  intros Hctx Hlt Hna Hevs st2 Hfired.
  destruct (run_forwards (signal ctx) (length (signals st)) evs
              (mw_enter context st).2 Hevs
              (mw_enter_forwards context st ctx Hctx Hlt Hna))
    as (sg & Hs & _ & _ & Hab).
  apply Hab. fold st2 in Hs. unfold is_aborted in Hfired.
  by rewrite Hs in Hfired.
Qed.

(** When the signal of the context has already fired at entry, the listener
    is registered all the same, and the inner signal starts out, and stays
    until someone aborts it, not fired. *)
Lemma mw_enter_after_outer_fired context st ctx :
  objects st !! context = Some ctx →
  is_aborted (signal ctx) (signals st) = true →
  let st1 := (mw_enter context st).2 in
  is_aborted (signal ctx) (signals st1) = true ∧
  is_aborted (length (signals st)) (signals st1) = false.
Proof.
  intros Hctx Ha. cbn. unfold context_signal.
  rewrite (list_lookup_total_correct _ _ _ Hctx).
  assert (signal ctx < length (signals st)) as Hlt.
  { unfold is_aborted in Ha.
    destruct (signals st !! signal ctx) eqn:Hs; [|done].
    by eapply lookup_lt_Some. }
  destruct (lookup_lt_is_Some_2 _ _ Hlt) as [sg Hs].
  assert ((signals st ++ [mkSignal false []]) !! signal ctx = Some sg) as Hs'
    by (by rewrite lookup_app_l).
  assert (∀ k, is_aborted k (addEventListener (signal ctx)
                 (abortListener (length (signals st)))
                 (signals st ++ [mkSignal false []]))
               = is_aborted k (signals st ++ [mkSignal false []])) as Hsame.
  { intros k. unfold addEventListener. rewrite Hs'.
    case_decide; [done|]. by apply (is_aborted_insert _ _ _ _ _ sg). }
  rewrite !Hsame. unfold is_aborted in *.
  rewrite lookup_app_l by done. split; [done|].
  by rewrite lookup_app_r, Nat.sub_diag.
Qed.

(** C9, at the input on which the code departs from it.  The signal of the
    context had fired before the call entered the middleware: the listener
    is registered too late to run, the inner signal stays as it was
    created, and the handler reads its signal as not aborted although the
    signal of the outer context is. *)
Theorem outer_fired_before_entry_not_forwarded :
  is_aborted (context_signal 0 cancelled_before_entry)
    (signals cancelled_before_entry) = true ∧
  (let '(f, _, st1) := mw_enter 0 cancelled_before_entry in
   registered (abortListener (innerAbortController f)) 0 (signals st1) ∧
   is_aborted 0 (signals st1) = true ∧
   is_aborted (innerAbortController f) (signals st1) = false) ∧
  (terminatorMiddleware polling_handler 0 cancelled_before_entry).1.2
  = Returned (Some "running").
Proof.
  split; [done|]. split; [|done]. cbn.
  split; [|done]. eexists. split; [reflexivity|]. cbn.
  by apply list_elem_of_singleton.
Qed.
End Forwarding.

(** ** The forwarding listener does not outlive the call *)

Section Leak.
Implicit Types h : list AbortSignal.
Implicit Types st : state.

Lemma not_added_refl l h : not_added l h h.
Proof. intros s sg Hs Hin. eauto. Qed.

Lemma not_added_trans l h1 h2 h3 :
  not_added l h1 h2 → not_added l h2 h3 → not_added l h1 h3.
Proof.
  intros H12 H23 s sg3 Hs3 Hin3.
  destruct (H23 s sg3 Hs3 Hin3) as (sg2 & Hs2 & Hin2). eauto.
Qed.

Lemma later_heap_not_added l h h' : later_heap h h' → not_added l h h'.
Proof.
  intros Hl s sg' Hs' Hin.
  assert (s < length h) as Hlt.
  { rewrite <- (proj1 Hl). by eapply lookup_lt_Some. }
  destruct (lookup_lt_is_Some_2 h s Hlt) as [sg Hs].
  destruct (later_heap_listeners _ _ _ _ Hl Hs) as (sg'' & Hs'' & Heq).
  exists sg. split; [done|]. rewrite <- Heq.
  by assert (sg'' = sg') as -> by congruence.
Qed.

Lemma addEventListener_not_added l l' s h :
  l' ≠ l → not_added l h (addEventListener s l' h).
Proof.
  intros Hne s0 sg' Hs' Hin. unfold addEventListener in Hs'.
  destruct (h !! s) as [sg|] eqn:Hs; [|eauto].
  case_decide; [eauto|].
  destruct (decide (s0 = s)) as [->|Hs0].
  - rewrite list_lookup_insert_eq in Hs' by (by eapply lookup_lt_Some).
    injection Hs' as <-. cbn in Hin. exists sg. split; [done|].
    apply elem_of_app in Hin as [Hin|Hin]; [done|].
    apply list_elem_of_singleton in Hin. congruence.
  - rewrite list_lookup_insert_ne in Hs' by done. eauto.
Qed.

Lemma removeEventListener_not_added l l' s h :
  not_added l h (removeEventListener s l' h).
Proof.
  intros s0 sg' Hs' Hin. unfold removeEventListener in Hs'.
  destruct (h !! s) as [sg|] eqn:Hs; [|eauto].
  destruct (decide (s0 = s)) as [->|Hs0].
  - rewrite list_lookup_insert_eq in Hs' by (by eapply lookup_lt_Some).
    injection Hs' as <-. cbn in Hin. exists sg. split; [done|].
    by apply list_elem_of_filter in Hin as [_ Hin].
  - rewrite list_lookup_insert_ne in Hs' by done. eauto.
Qed.

Lemma removeEventListener_gone l s h sg :
  removeEventListener s l h !! s = Some sg → l ∉ listeners sg.
Proof.
  unfold removeEventListener. intros Hs Hin.
  destruct (h !! s) as [sg0|] eqn:H0; [|congruence].
  rewrite list_lookup_insert_eq in Hs by (by eapply lookup_lt_Some).
  injection Hs as <-. cbn in Hin.
  by apply list_elem_of_filter in Hin as [Hin _].
Qed.

Lemma new_AbortController_not_added l h :
  not_added l h (new_AbortController h).2.
Proof.
  intros s sg' Hs' Hin. cbn in Hs'.
  apply lookup_app_Some in Hs' as [Hs'|[_ Hs']]; [eauto|].
  apply list_lookup_singleton_Some in Hs' as [_ <-].
  by apply elem_of_nil in Hin.
Qed.

(** No event registers the listener of a controller that already exists;
    the controllers only grow in number. *)
Lemma step_not_added inner st ev :
  inner < length (signals st) →
  not_added (abortListener inner) (signals st) (signals (step st ev)) ∧
  inner < length (signals (step st ev)).
Proof.
  intros Hlt. destruct ev; cbn.
  - split.
    + eapply not_added_trans; [apply new_AbortController_not_added|].
      apply addEventListener_not_added. intros [= Heq]. lia.
    + unfold addEventListener.
      destruct (_ !! context_signal context st); [case_decide|];
        rewrite ?length_insert, length_app; cbn; lia.
  - unfold abortOnTerminate. destruct (terminated st); cbn.
    + split; [apply later_heap_not_added, abort_later|by rewrite abort_length].
    + split; [apply not_added_refl|done].
  - split; [apply removeEventListener_not_added|].
    unfold removeEventListener. destruct (_ !! _); by rewrite ?length_insert.
  - unfold terminate. destruct (terminated st); cbn.
    + split; [apply not_added_refl|done].
    + split; [apply later_heap_not_added, fold_abort_later|].
      by rewrite (proj1 (fold_abort_later _ _)).
  - split; [apply later_heap_not_added, abort_later|by rewrite abort_length].
  - split; [apply new_AbortController_not_added|rewrite length_app; lia].
  - split; [apply not_added_refl|done].
  - split; [by apply addEventListener_not_added|].
    unfold addEventListener. destruct (_ !! _); [case_decide|];
      by rewrite ?length_insert.
Qed.

Lemma run_not_added inner evs : ∀ st,
  inner < length (signals st) →
  not_added (abortListener inner) (signals st) (signals (run evs st)).
Proof.
  induction evs as [|ev evs IH]; intros st Hlt; [apply not_added_refl|].
  destruct (step_not_added inner st ev Hlt) as [Hstep Hlt'].
  eapply not_added_trans; [exact Hstep|by apply IH].
Qed.

(** Context objects are never moved or overwritten. *)
Lemma step_objects st ev k ctx :
  objects st !! k = Some ctx → objects (step st ev) !! k = Some ctx.
Proof.
  intros Hk. destruct ev; cbn; try done.
  - by apply lookup_app_l_Some.
  - unfold abortOnTerminate. by destruct (terminated st).
  - unfold terminate. by destruct (terminated st).
  - by apply lookup_app_l_Some.
Qed.

Lemma run_objects evs : ∀ st k ctx,
  objects st !! k = Some ctx → objects (run evs st) !! k = Some ctx.
Proof.
  induction evs as [|ev evs IH]; intros st k ctx Hk; [done|].
  by apply IH, step_objects.
Qed.

(** Right after entry the forwarding listener of the call is registered
    nowhere but on the signal of its context, provided no listener had
    captured the controller before it existed. *)
Lemma mw_enter_only_on context st ctx :
  objects st !! context = Some ctx →
  no_listener_to (length (signals st)) (signals st) →
  only_on (signal ctx) (length (signals st)) (signals (mw_enter context st).2).
Proof.
  intros Hctx Hfresh s sg Hs Hin. cbn in Hs.
  unfold context_signal in Hs.
  rewrite (list_lookup_total_correct _ _ _ Hctx) in Hs.
  destruct (decide (s = signal ctx)) as [|Hne]; [done|]. exfalso.
  unfold addEventListener in Hs.
  destruct (_ !! signal ctx) as [sg0|];
    [case_decide; [|rewrite list_lookup_insert_ne in Hs by done]|];
    (apply lookup_app_Some in Hs as [Hs|[_ Hs]];
     [by eapply Hfresh
     |apply list_lookup_singleton_Some in Hs as [_ <-];
      by apply elem_of_nil in Hin]).
Qed.

Lemma mw_enter_length context st :
  length (signals (mw_enter context st).2) = S (length (signals st)).
Proof.
  cbn. unfold addEventListener.
  destruct (_ !! context_signal context st); [case_decide|];
    rewrite ?length_insert, length_app; cbn; lia.
Qed.

Lemma only_on_not_added outer inner h h' :
  not_added (abortListener inner) h h' →
  only_on outer inner h → only_on outer inner h'.
Proof.
  intros Hna Honly s sg' Hs' Hin.
  destruct (Hna s sg' Hs' Hin) as (sg & Hs & Hin0). by eapply Honly.
Qed.

(** The [finally] block removes the listener from the only signal that can
    carry it. *)
Lemma mw_finally_no_listener context inner st ctx :
  objects st !! context = Some ctx →
  only_on (signal ctx) inner (signals st) →
  no_listener_to inner (signals (mw_finally (mkFrame context inner) st)).
Proof.
  intros Hctx Honly s sg Hs Hin.
  change (signals (mw_finally (mkFrame context inner) st))
    with (removeEventListener (context_signal context st)
            (abortListener inner) (signals st)) in Hs.
  unfold context_signal in Hs.
  rewrite (list_lookup_total_correct _ _ _ Hctx) in Hs.
  assert (s ≠ signal ctx) as Hne.
  { intros ->. by eapply removeEventListener_gone. }
  destruct (removeEventListener_not_added _ _ _ _ s sg Hs Hin)
    as (sg1 & Hs1 & Hin1).
  apply Hne. by eapply Honly.
Qed.

(** X2.  Whatever happens while the call is in flight, once its [finally]
    block has run the forwarding listener it created is registered on no
    signal at all, provided no listener had captured the controller before
    it existed. *)
Lemma forwarding_listener_not_leaked context st ctx evs :
  objects st !! context = Some ctx →
  no_listener_to (length (signals st)) (signals st) →
  let f := (mw_enter context st).1.1 in
  let st1 := (mw_enter context st).2 in
  no_listener_to (innerAbortController f) (signals (mw_finally f (run evs st1))).
Proof.
  intros Hctx Hfresh f st1. cbn in f. subst f. cbn [innerAbortController].
  assert (length (signals st) < length (signals st1)) as Hlt.
  { subst st1. rewrite mw_enter_length. lia. }
  apply (mw_finally_no_listener context _ _ ctx).
  - apply run_objects. subst st1. cbn. by apply lookup_app_l_Some.
  - eapply only_on_not_added; [by apply run_not_added|].
    by apply mw_enter_only_on.
Qed.

(** From a fresh middleware on, the set is empty whenever [terminated] is
    set. *)
Lemma reachable_sealed evs :
  terminated (run evs initial) = true → abortControllers (run evs initial) = [].
Proof.
  assert (∀ evs st, (terminated st = true → abortControllers st = []) →
            terminated (run evs st) = true → abortControllers (run evs st) = [])
    as Hgen.
  { clear evs. induction evs as [|ev evs IH]; intros st Hinv; [done|].
    cbn [run foldl]. apply IH. intros Ht.
    destruct (terminated st) eqn:Ht0.
    - apply (step_sealed st ev). split; [done|by apply Hinv].
    - destruct ev; cbn in *; try congruence.
      + unfold abortOnTerminate in Ht. rewrite Ht0 in Ht. cbn in Ht.
        congruence.
      + unfold terminate. by rewrite Ht0. }
  apply Hgen. done.
Qed.
End Leak.

(** ** The shutdown scenario and instances of the theorems above *)

Section Scenario.
(** A handler opts in with [abortOnTerminate()] and waits; [terminate()]
    runs while no other call is registered and the peer has not cancelled;
    the handler is thrown the [AbortError] of its signal.  The call fails
    with [UNAVAILABLE: Server shutting down]. *)
Lemma shutdown_scenario context st ctx :
  objects st !! context = Some ctx →
  signal ctx < length (signals st) →
  is_aborted (signal ctx) (signals st) = false →
  terminated st = false →
  abortControllers st = [] →
  (terminatorMiddleware waiting_handler context st).1.2
  = Threw (ServerError UNAVAILABLE "Server shutting down").
Proof.
  intros Hctx Hlt Hna Ht Hs.
  unfold terminatorMiddleware, waiting_handler, mw_enter. cbn.
  unfold call_abortOnTerminate. cbn.
  rewrite list_lookup_total_middle by done. cbn.
  rewrite lookup_insert_eq.
  unfold abortOnTerminate. cbn. rewrite Ht, Hs. cbn.
  unfold context_signal at 1. rewrite (list_lookup_total_correct _ _ _ Hctx).
  set (h2 := addEventListener _ _ _).
  assert (length h2 = S (length (signals st))) as Hlen.
  { subst h2. unfold addEventListener.
    destruct (_ !! signal ctx); [|by rewrite length_app, Nat.add_1_r].
    case_decide; [|rewrite length_insert];
      by rewrite length_app, Nat.add_1_r. }
  assert (h2 !! length (signals st) = Some (mkSignal false [])) as Hinner.
  { subst h2. unfold addEventListener.
    destruct (_ !! signal ctx);
      [case_decide; [|rewrite list_lookup_insert_ne by lia]|];
      by rewrite lookup_app_r, Nat.sub_diag. }
  assert (is_aborted (signal ctx) h2 = false) as Houter.
  { subst h2. unfold addEventListener.
    destruct (lookup_lt_is_Some_2 _ _ Hlt) as [sg Hsg].
    rewrite lookup_app_l, Hsg by done.
    case_decide.
    - unfold is_aborted in *. by rewrite lookup_app_l.
    - rewrite (is_aborted_insert _ _ _ _ _ sg);
        [|by rewrite lookup_app_l|done].
      unfold is_aborted in *. by rewrite lookup_app_l. }
  change (Set_add (length (signals st)) []) with [length (signals st)].
  cbn [foldl]. rewrite (abort_no_listeners _ _ _ Hinner eq_refl). cbn.
  unfold mw_catch. cbn. unfold context_signal. cbn.
  rewrite lookup_total_app_l by (by eapply lookup_lt_Some).
  rewrite (list_lookup_total_correct _ _ _ Hctx).
  assert (is_aborted (length (signals st))
            (<[length (signals st) := mkSignal true []]> h2) = true) as ->.
  { unfold is_aborted. rewrite list_lookup_insert_eq by lia. done. }
  assert (is_aborted (signal ctx)
            (<[length (signals st) := mkSignal true []]> h2) = false) as ->.
  { unfold is_aborted in *. rewrite list_lookup_insert_ne by lia. done. }
  done.
Qed.
(** The states used as examples are states of a running server. *)
Lemma example_states_reachable :
  run [EvNewController; EvNewContext (mkContext 0 ∅)] initial = one_call ∧
  run [EvNewController; EvAbort 0; EvNewContext (mkContext 0 ∅)] initial
  = cancelled_before_entry ∧
  run [EvNewController; EvNewContext (mkContext 0 ∅); EvEnter 0;
       EvAbortOnTerminate 1; EvNewController] initial
  = registered_call ∧
  run [EvNewController; EvNewContext (mkContext 0 ∅); EvEnter 0;
       EvAbortOnTerminate 1; EvNewController; EvNewContext (mkContext 2 ∅);
       EvEnter 2] initial
  = two_calls.
Proof. split; [|split; [|split]]; reflexivity. Qed.

(** The shutdown scenario and the peer-cancellation scenario on the small
    world, through the theorem on the [catch] block. *)
Lemma terminator_error_mapping_witness :
  (terminatorMiddleware waiting_handler 0 one_call).1.2
  = Threw (ServerError UNAVAILABLE "Server shutting down") ∧
  (terminatorMiddleware cancelled_handler 0 one_call).1.2 = Threw AbortError.
Proof.
  split.
  - refine (proj1 (terminator_error_mapping waiting_handler 0 one_call
                     _ _ _ _ _ _ eq_refl eq_refl) _).
    split; reflexivity.
  - refine (proj2 (terminator_error_mapping cancelled_handler 0 one_call
                     _ _ _ _ _ _ eq_refl eq_refl) _).
    intros [_ H]. discriminate H.
Defined.

(** The three ways out, each after the handler has registered the call. *)
Lemma terminator_cleanup_witness :
  let cleaned st' :=
    (1 ∉ abortControllers st') ∧
    ¬ registered (abortListener 1) (context_signal 0 st') (signals st') in
  cleaned (terminatorMiddleware returning_handler 0 one_call).2 ∧
  cleaned (terminatorMiddleware waiting_handler 0 one_call).2 ∧
  cleaned (terminatorMiddleware stopped_handler 0 one_call).2.
Proof.
  split; [|split].
  - exact (terminator_cleanup returning_handler 0 one_call
             _ _ _ _ _ _ eq_refl eq_refl).
  - exact (terminator_cleanup waiting_handler 0 one_call
             _ _ _ _ _ _ eq_refl eq_refl).
  - exact (terminator_cleanup stopped_handler 0 one_call
             _ _ _ _ _ _ eq_refl eq_refl).
Defined.

Lemma terminator_context_untouched_witness :
  objects (terminatorMiddleware waiting_handler 0 one_call).2 !! 0
  = Some (mkContext 0 ∅).
Proof.
  exact (proj1 (terminator_context_untouched waiting_handler 0 one_call
                  _ _ _ _ _ _ _ eq_refl eq_refl eq_refl eq_refl)).
Defined.

(** A call that enters the middleware after [terminate()] and opts in. *)
Lemma no_registration_after_terminate_witness :
  let st1 := run [EvEnter 0] (terminate one_call) in
  abortControllers st1 = [] ∧
  abortControllers (abortOnTerminate 1 st1) = [] ∧
  is_aborted 1 (signals (abortOnTerminate 1 st1)) = true.
Proof.
  apply (no_registration_after_terminate one_call [EvEnter 0] 1 eq_refl).
  vm_compute. lia.
Defined.

Lemma abortOnTerminate_idempotent_witness :
  Nat.iter 3 (abortOnTerminate 0) one_call = abortOnTerminate 0 one_call ∧
  abortControllers (Nat.iter 3 (abortOnTerminate 0) one_call) = [0].
Proof.
  pose proof (abortOnTerminate_idempotent one_call 0 3) as H.
  split; [|reflexivity]. apply H; [apply NoDup_nil_2|reflexivity|lia].
Defined.
End Scenario.

(** * Shutdown, cancellation and the calls in flight *)

Section Latched.
Implicit Types h : list AbortSignal.
Implicit Types st : state.

Lemma is_aborted_addEventListener k s l h :
  is_aborted k (addEventListener s l h) = is_aborted k h.
Proof.
  unfold addEventListener. destruct (h !! s) as [sg|] eqn:Hs; [|done].
  case_decide; [done|]. by apply (is_aborted_insert _ _ _ _ _ sg).
Qed.

Lemma is_aborted_removeEventListener k s l h :
  is_aborted k (removeEventListener s l h) = is_aborted k h.
Proof.
  unfold removeEventListener. destruct (h !! s) as [sg|] eqn:Hs; [|done].
  by apply (is_aborted_insert _ _ _ _ _ sg).
Qed.

Lemma is_aborted_new k h :
  is_aborted k (h ++ [mkSignal false []]) = is_aborted k h.
Proof.
  unfold is_aborted. destruct (decide (k < length h)) as [Hlt|Hge].
  - by rewrite lookup_app_l.
  - rewrite lookup_app_r by lia. rewrite (lookup_ge_None_2 h k) by lia.
    by destruct (k - length h) as [|[|n]].
Qed.

(** [signal.aborted] is latched: nothing that happens clears it. *)
Lemma step_latched st ev k :
  is_aborted k (signals st) = true → is_aborted k (signals (step st ev)) = true.
Proof.
  intros Hk. destruct ev; cbn.
  - by rewrite is_aborted_addEventListener, is_aborted_new.
  - unfold abortOnTerminate. destruct (terminated st); cbn; [|done].
    by apply abort_mono.
  - by rewrite is_aborted_removeEventListener.
  - unfold terminate. destruct (terminated st); cbn; [done|].
    eapply later_heap_aborted; [apply fold_abort_later|done].
  - by apply abort_mono.
  - by rewrite is_aborted_new.
  - done.
  - by rewrite is_aborted_addEventListener.
Qed.

Lemma run_latched evs : ∀ st k,
  is_aborted k (signals st) = true → is_aborted k (signals (run evs st)) = true.
Proof.
  induction evs as [|ev evs IH]; intros st k Hk; [done|].
  by apply IH, step_latched.
Qed.

Lemma run_app evs1 evs2 st : run (evs1 ++ evs2) st = run evs2 (run evs1 st).
Proof. apply foldl_app. Qed.

Lemma run_terminate_seen evs : ∀ st,
  terminated st = true ∨ EvTerminate ∈ evs → terminated (run evs st) = true.
Proof.
  induction evs as [|ev evs IH]; intros st [Ht|Hin].
  - done.
  - by apply elem_of_nil in Hin.
  - apply IH. left. by apply step_terminated.
  - apply IH. apply elem_of_cons in Hin as [<-|Hin]; [left|by right].
    apply terminate_terminated.
Qed.

Lemma run_length inner evs : ∀ st,
  inner < length (signals st) → inner < length (signals (run evs st)).
Proof.
  induction evs as [|ev evs IH]; intros st Hlt; [done|].
  apply IH. by apply step_not_added.
Qed.

Lemma mw_enter_objects context st ctx :
  objects st !! context = Some ctx →
  objects (mw_enter context st).2 !! context = Some ctx.
Proof. intros H. cbn. by apply lookup_app_l_Some. Qed.

Lemma context_signal_run context st ctx evs :
  objects st !! context = Some ctx →
  context_signal context (run evs st) = signal ctx.
Proof.
  intros H. unfold context_signal.
  by rewrite (list_lookup_total_correct _ _ _ (run_objects evs _ _ _ H)).
Qed.
End Latched.

Section OptedIn.
Implicit Types h : list AbortSignal.
Implicit Types st : state.

Lemma Set_add_keeps x y s : x ∈ s → x ∈ Set_add y s.
Proof.
  intros Hx. unfold Set_add. case_decide; [done|].
  apply elem_of_app. by left.
Qed.

Lemma Set_add_other x y s : x ∉ s → x ≠ y → x ∉ Set_add y s.
Proof.
  intros Hx Hne. unfold Set_add. case_decide; [done|].
  intros Hin. apply elem_of_app in Hin as [Hin|Hin]; [done|].
  by apply list_elem_of_singleton in Hin.
Qed.

Lemma Set_delete_keeps x y s : x ∈ s → x ≠ y → x ∈ Set_delete y s.
Proof. intros Hx Hne. by apply list_elem_of_filter. Qed.

Lemma Set_delete_other x y s : x ∉ s → x ∉ Set_delete y s.
Proof. intros Hx Hin. by apply list_elem_of_filter in Hin as [_ Hin]. Qed.

Lemma opted_weaken inner (A B : Prop) st :
  (B → A) → opted inner A st → opted inner B st.
Proof. intros HBA [Hlt H]. split; [done|]. intros HB. apply H. by apply HBA. Qed.

(** One event keeps a call that has opted in where it stands, or aborts it;
    the event that opts it in puts it there. *)
Lemma step_opted inner (A : Prop) st ev :
  (∀ f, ev = EvExit f → innerAbortController f ≠ inner) →
  opted inner A st →
  opted inner (A ∨ ev = EvAbortOnTerminate inner) (step st ev).
Proof.
  intros Hexit [Hlt Hin]. split; [by apply step_not_added|].
  intros [HA | ->].
  - destruct (Hin HA) as [Hab|[Ht Hset]]; [left; by apply step_latched|].
    destruct ev; cbn.
    + right. done.
    + unfold abortOnTerminate. rewrite Ht. cbn. right.
      split; [done|]. by apply Set_add_keeps.
    + right. split; [done|]. apply Set_delete_keeps; [done|].
      intros Heq. by eapply Hexit.
    + left. unfold terminate. rewrite Ht. cbn. by apply fold_abort_all.
    + by right.
    + by right.
    + by right.
    + by right.
  - cbn. unfold abortOnTerminate. destruct (terminated st) eqn:Ht; cbn.
    + left. by apply abort_self.
    + right. split; [done|]. apply Set_add_elem.
Qed.

Lemma run_opted inner evs : ∀ (A : Prop) st,
  (∀ f, EvExit f ∈ evs → innerAbortController f ≠ inner) →
  opted inner A st →
  opted inner (A ∨ EvAbortOnTerminate inner ∈ evs) (run evs st).
Proof.
  induction evs as [|ev evs IH]; intros A st Hexit Hop.
  - eapply opted_weaken; [|exact Hop]. intros [HA|Hin]; [done|].
    by apply elem_of_nil in Hin.
  - cbn [run foldl].
    eapply opted_weaken; [|apply (IH (A ∨ ev = EvAbortOnTerminate inner))].
    + intros [HA|Hin]; [by left; left|].
      apply elem_of_cons in Hin as [->|Hin]; [left; by right|by right].
    + intros f Hf. apply Hexit. by apply elem_of_cons; right.
    + apply step_opted; [|done]. intros f ->. apply Hexit.
      by apply elem_of_cons; left.
Qed.

(** A call that has opted in and has not left the middleware is aborted as
    soon as both [abortOnTerminate()] and [terminate()] have run. *)
Lemma run_opted_aborted inner evs st :
  inner < length (signals st) →
  (∀ f, EvExit f ∈ evs → innerAbortController f ≠ inner) →
  EvAbortOnTerminate inner ∈ evs →
  terminated st = true ∨ EvTerminate ∈ evs →
  is_aborted inner (signals (run evs st)) = true.
Proof.
  intros Hlt Hexit Hopt Hterm.
  assert (opted inner False st) as H0 by (by split).
  destruct (run_opted inner evs False st Hexit H0) as [_ Hin].
  destruct (Hin (or_intror Hopt)) as [?|[Ht _]]; [done|].
  by rewrite (run_terminate_seen evs st Hterm) in Ht.
Qed.
End OptedIn.

Section Undisturbed.
Implicit Types h : list AbortSignal.
Implicit Types st : state.
Implicit Types K : nat → Prop.

Lemma closed_not_added K h h' :
  (∀ k, K k → not_added (abortListener k) h h') →
  closed_under_forwarding K h → closed_under_forwarding K h'.
Proof.
  intros Hna Hcl s sg' k Hs' Hin Hk.
  destruct (Hna k Hk s sg' Hs' Hin) as (sg & Hs & Hin0). by eapply Hcl.
Qed.

Lemma closed_later K h h' :
  later_heap h h' → closed_under_forwarding K h → closed_under_forwarding K h'.
Proof.
  intros Hl. apply closed_not_added. intros k _.
  by apply later_heap_not_added.
Qed.

Lemma fold_protected K f ls :
  (∀ c h, ¬ K c → closed_under_forwarding K h →
     ∀ k, K k → abort_n f c h !! k = h !! k) →
  ∀ h, closed_under_forwarding K h →
    (∀ c, abortListener c ∈ ls → ¬ K c) →
    ∀ k, K k → foldl (run_listener (abort_n f)) h ls !! k = h !! k.
Proof.
  intros Hf. induction ls as [|l ls IHls]; intros h Hcl Hls k Hk; [done|].
  cbn [foldl]. destruct l as [c|tag]; cbn [run_listener].
  - etrans.
    + apply IHls; [|intros c' Hc'; apply Hls; by apply elem_of_cons; right|done].
      eapply closed_later; [apply abort_n_later|done].
    + apply Hf; [apply Hls; by apply elem_of_cons; left|done..].
  - apply IHls; [done| |done].
    intros c' Hc'. apply Hls. by apply elem_of_cons; right.
Qed.

(** An abort of a controller outside [K] changes nothing in [K], when no
    signal outside [K] forwards into [K]. *)
Lemma abort_n_protected K fuel : ∀ c h,
  ¬ K c → closed_under_forwarding K h →
  ∀ k, K k → abort_n fuel c h !! k = h !! k.
Proof.
  induction fuel as [|fuel IH]; intros c h Hc Hcl k Hk; [done|].
  cbn [abort_n]. destruct (h !! c) as [sg|] eqn:Hsg; [|done].
  destruct (aborted sg); [done|].
  rewrite (fold_protected K fuel (listeners sg) IH); [| | |done].
  - apply list_lookup_insert_ne. intros ->. done.
  - eapply closed_later; [by apply later_heap_mark|done].
  - intros c' Hin Hc'. apply Hc. by eapply Hcl.
Qed.

Lemma abort_protected K c h :
  ¬ K c → closed_under_forwarding K h →
  ∀ k, K k → abort c h !! k = h !! k.
Proof. apply abort_n_protected. Qed.

Lemma fold_abort_protected K cs : ∀ h,
  (∀ c, c ∈ cs → ¬ K c) → closed_under_forwarding K h →
  ∀ k, K k → foldl (λ h c, abort c h) h cs !! k = h !! k.
Proof.
  induction cs as [|c cs IH]; intros h Hcs Hcl k Hk; [done|].
  cbn [foldl]. etrans.
  - apply IH; [|eapply closed_later; [apply abort_later|done]|done].
    intros c' Hc'. apply Hcs. by apply elem_of_cons; right.
  - apply (abort_protected K); [|done..]. apply Hcs. by apply elem_of_cons; left.
Qed.

Lemma is_aborted_lookup k h h' :
  h' !! k = h !! k → is_aborted k h' = is_aborted k h.
Proof. unfold is_aborted. by intros ->. Qed.

(** An event that spares the controllers of [K] leaves them undisturbed. *)
Lemma step_undisturbed K st ev :
  (∀ k, K k → spares k ev) → undisturbed K st → undisturbed K (step st ev).
Proof.
  intros Hsp [Hmem Hcl].
  assert (closed_under_forwarding K (signals (step st ev))) as Hcl'.
  { eapply closed_not_added; [|done]. intros k Hk.
    apply step_not_added. by apply Hmem. }
  split; [|done]. intros k Hk.
  destruct (Hmem k Hk) as (Hlt & Hset & Hfl).
  destruct (Hsp k Hk) as [Hab Hopt].
  split; [by apply step_not_added|].
  destruct ev; cbn.
  - split; [done|]. by rewrite is_aborted_addEventListener, is_aborted_new.
  - unfold abortOnTerminate. destruct (terminated st); cbn.
    + split; [done|].
      rewrite (is_aborted_lookup k (signals st)); [done|].
      apply (abort_protected K); [|done..].
      intros Hin. destruct (Hsp _ Hin) as [_ Hne]. done.
    + split; [|done]. apply Set_add_other; [done|]. congruence.
  - split; [by apply Set_delete_other|].
    by rewrite is_aborted_removeEventListener.
  - unfold terminate. destruct (terminated st); cbn; [done|].
    split; [apply not_elem_of_nil|].
    rewrite (is_aborted_lookup k (signals st)); [done|].
    apply (fold_abort_protected K); [|done..].
    intros c Hc Hin. by destruct (Hmem c Hin) as (_ & ? & _).
  - split; [done|].
    rewrite (is_aborted_lookup k (signals st)); [done|].
    apply (abort_protected K); [|done..].
    intros Hin. destruct (Hsp _ Hin) as [Hne _]. done.
  - split; [done|]. by rewrite is_aborted_new.
  - done.
  - split; [done|]. by rewrite is_aborted_addEventListener.
Qed.

Lemma run_undisturbed K evs : ∀ st,
  (∀ ev k, ev ∈ evs → K k → spares k ev) →
  undisturbed K st → undisturbed K (run evs st).
Proof.
  induction evs as [|ev evs IH]; intros st Hsp Hun; [done|].
  cbn [run foldl]. apply IH.
  - intros ev' k Hin. apply Hsp. by apply elem_of_cons; right.
  - apply step_undisturbed; [|done]. intros k. apply Hsp.
    by apply elem_of_cons; left.
Qed.
End Undisturbed.

Section TerminateOnce.
Implicit Types st : state.

(** C2.  The first [terminate()] sets the flag, empties the set and aborts
    every controller of the set.  It aborts nothing else: it leaves as they
    are the signals of every group of controllers none of which is in the
    set and into which no signal outside the group forwards, such as the
    context signal and the inner controller of a call that has not opted
    in; and it touches no context object.  Any later [terminate()],
    whatever happened in between, changes nothing; so two calls in a row do
    what the first one does. *)
Theorem terminate_idempotent st :
  terminated st = false →
  let st1 := terminate st in
  terminated st1 = true ∧ abortControllers st1 = [] ∧
  (∀ c, c ∈ abortControllers st → c < length (signals st) →
     is_aborted c (signals st1) = true) ∧
  (∀ K : nat → Prop,
     closed_under_forwarding K (signals st) →
     (∀ k, K k → k ∉ abortControllers st) →
     ∀ k, K k → signals st1 !! k = signals st !! k) ∧
  objects st1 = objects st ∧
  (∀ evs, terminate (run evs st1) = run evs st1) ∧
  terminate (terminate st) = terminate st.
Proof.
  intros Ht st1.
  assert (terminated st1 = true) as Ht1 by apply terminate_terminated.
  split; [done|]. subst st1. unfold terminate at 1 2 3 4. rewrite Ht. cbn.
  split; [done|]. split; [apply fold_abort_all|]. split.
  - intros K Hcl Hout k Hk. apply (fold_abort_protected K); [|done..].
    intros c Hc Hin. by apply (Hout c).
  - split; [done|]. split; [|by apply terminate_again].
    intros evs. apply terminate_again. by apply run_terminated.
Qed.
End TerminateOnce.

Section InFlight.
Context {Request Response : Type}.
Implicit Types call : ServerMiddlewareCall Request Response.
Implicit Types st : state.

Lemma mw_enter_eq context st :
  mw_enter context st
  = ((mw_enter context st).1.1, (mw_enter context st).1.2,
     (mw_enter context st).2).
Proof. done. Qed.

(** Entering the middleware leaves the signal of the context and the new
    controller undisturbed, when nothing had reached them before. *)
Lemma mw_enter_undisturbed context st ctx :
  objects st !! context = Some ctx →
  signal ctx < length (signals st) →
  is_aborted (signal ctx) (signals st) = false →
  signal ctx ∉ abortControllers st →
  length (signals st) ∉ abortControllers st →
  no_listener_to (signal ctx) (signals st) →
  no_listener_to (length (signals st)) (signals st) →
  undisturbed (λ k, k = signal ctx ∨ k = length (signals st))
    (mw_enter context st).2.
Proof.
  intros Hctx Hlt Hfl Hset Hset' Hno Hno'. split.
  - intros k Hk. rewrite mw_enter_length. cbn.
    rewrite is_aborted_addEventListener, is_aborted_new.
    destruct Hk as [-> | ->]; [by split; [lia|]|].
    split; [lia|]. split; [done|].
    unfold is_aborted. by rewrite lookup_ge_None_2.
  - intros s sg k Hs Hin [-> | ->].
    + exfalso. cbn in Hs.
      destruct (addEventListener_not_added (abortListener (signal ctx))
                  (abortListener (length (signals st)))
                  (context_signal context st) _
                  ltac:(intros [= Heq]; lia) s sg Hs Hin)
        as (sg1 & Hs1 & Hin1).
      destruct (new_AbortController_not_added _ (signals st) s sg1 Hs1 Hin1)
        as (sg0 & Hs0 & Hin0).
      by eapply Hno.
    + left. by eapply (mw_enter_only_on context st ctx).
Qed.

(** X3.  [terminate()] is opt-in.  A call that has not invoked
    [abortOnTerminate()] and whose context signal nobody aborts keeps its
    inner signal, whatever else happens while it is in flight: [terminate()],
    other calls entering, registering and leaving, aborts of other
    controllers.  What its handler throws is then forwarded as it is. *)
Theorem call_not_opted_in_is_spared context st ctx evs :
  objects st !! context = Some ctx →
  signal ctx < length (signals st) →
  is_aborted (signal ctx) (signals st) = false →
  signal ctx ∉ abortControllers st →
  length (signals st) ∉ abortControllers st →
  no_listener_to (signal ctx) (signals st) →
  no_listener_to (length (signals st)) (signals st) →
  (∀ ev, ev ∈ evs → spares (signal ctx) ev ∧ spares (length (signals st)) ev) →
  let st2 := run evs (mw_enter context st).2 in
  is_aborted (length (signals st)) (signals st2) = false ∧
  is_aborted (signal ctx) (signals st2) = false ∧
  ∀ err, mw_catch (mkFrame context (length (signals st))) err st2 = err.
Proof.
  intros Hctx Hlt Hfl Hset Hset' Hno Hno' Hsp st2.
  pose proof (mw_enter_undisturbed context st ctx Hctx Hlt Hfl Hset Hset'
                Hno Hno') as H1.
  apply (run_undisturbed _ evs) in H1; cycle 1.
  { intros ev k Hev [-> | ->]; by apply Hsp. }
  fold st2 in H1. destruct H1 as [Hmem _].
  destruct (Hmem _ (or_intror eq_refl)) as (_ & _ & Hinner).
  destruct (Hmem _ (or_introl eq_refl)) as (_ & _ & Houter).
  split; [done|]. split; [done|].
  intros err. unfold mw_catch. cbn [innerAbortController]. by rewrite Hinner.
Qed.

(** X4.  There is no window between [abortOnTerminate()] and [terminate()].
    For a call in flight, once it has invoked [abortOnTerminate()] and
    [terminate()] has been invoked, in either order and even if the
    middleware had been terminated before the call came in, the inner signal
    has fired. *)
Theorem opted_in_call_is_aborted_by_shutdown context st evs :
  EvAbortOnTerminate (length (signals st)) ∈ evs →
  terminated st = true ∨ EvTerminate ∈ evs →
  (∀ f, EvExit f ∈ evs → innerAbortController f ≠ length (signals st)) →
  is_aborted (length (signals st)) (signals (run evs (mw_enter context st).2))
  = true.
Proof.
  intros Hopt Hterm Hexit.
  apply run_opted_aborted; [|done..].
  rewrite mw_enter_length. lia.
Qed.

(** X5.  Shutdown as the client sees it.  A call whose handler opts in, is
    still running when [terminate()] is invoked (or opts in after it), and
    then throws, fails with [UNAVAILABLE: Server shutting down] whatever it
    threw, as long as nobody aborts the signal of its context; other calls
    may enter, register and leave meanwhile. *)
Theorem shutdown_is_reported_as_unavailable call context st ctx evs yielded err :
  objects st !! context = Some ctx →
  signal ctx < length (signals st) →
  is_aborted (signal ctx) (signals st) = false →
  signal ctx ∉ abortControllers st →
  no_listener_to (signal ctx) (signals st) →
  next call (request call) (mw_enter context st).1.2 (mw_enter context st).2
  = (yielded, Threw err, run evs (mw_enter context st).2) →
  EvAbortOnTerminate (length (signals st)) ∈ evs →
  terminated st = true ∨ EvTerminate ∈ evs →
  (∀ f, EvExit f ∈ evs → innerAbortController f ≠ length (signals st)) →
  (∀ ev, ev ∈ evs → spares (signal ctx) ev) →
  (terminatorMiddleware call context st).1.2
  = Threw (ServerError UNAVAILABLE "Server shutting down").
Proof.
  intros Hctx Hlt Hfl Hset Hno Hnext Hopt Hterm Hexit Hsp.
  rewrite (terminatorMiddleware_unfold _ _ _ _ _ _ _ _ _
             (mw_enter_eq context st) Hnext).
  cbn [fst snd]. f_equal. unfold mw_catch.
  change (frame_context (mw_enter context st).1.1) with context.
  change (innerAbortController (mw_enter context st).1.1)
    with (length (signals st)).
  rewrite (context_signal_run context _ ctx evs)
    by (by apply mw_enter_objects).
  rewrite run_opted_aborted; [|rewrite mw_enter_length; lia|done..].
  assert (undisturbed (λ k, k = signal ctx) st) as H0.
  { split.
    - by intros k ->.
    - intros s sg k Hs Hin ->. exfalso. by eapply Hno. }
  apply (step_undisturbed _ st (EvEnter context)) in H0; cycle 1.
  { by intros k _. }
  apply (run_undisturbed _ evs) in H0; cycle 1.
  { intros ev k Hev ->. by apply Hsp. }
  destruct H0 as [Hmem _]. destruct (Hmem _ eq_refl) as (_ & _ & Houter).
  cbn [step] in Houter. by rewrite Houter.
Qed.

(** X6.  Cancellation is not reported as shutdown.  Once the signal of the
    context has fired during the call, whatever happens afterwards
    ([abortOnTerminate()], [terminate()], anything else), what the handler
    throws is forwarded as it is. *)
Theorem peer_cancellation_is_forwarded call context st ctx evs1 evs2 yielded err :
  objects st !! context = Some ctx →
  next call (request call) (mw_enter context st).1.2 (mw_enter context st).2
  = (yielded, Threw err, run (evs1 ++ evs2) (mw_enter context st).2) →
  is_aborted (signal ctx) (signals (run evs1 (mw_enter context st).2)) = true →
  (terminatorMiddleware call context st).1.2 = Threw err.
Proof.
  intros Hctx Hnext Hfired.
  rewrite (terminatorMiddleware_unfold _ _ _ _ _ _ _ _ _
             (mw_enter_eq context st) Hnext).
  cbn [fst snd]. f_equal. unfold mw_catch.
  change (frame_context (mw_enter context st).1.1) with context.
  rewrite (context_signal_run context _ ctx (evs1 ++ evs2))
    by (by apply mw_enter_objects).
  rewrite run_app. rewrite (run_latched evs2 _ _ Hfired).
  by rewrite andb_false_r.
Qed.
End InFlight.

Section AfterExit.
Implicit Types st : state.

Lemma mw_finally_length f st :
  length (signals (mw_finally f st)) = length (signals st).
Proof.
  change (signals (mw_finally f st))
    with (removeEventListener (context_signal (frame_context f) st)
            (abortListener (innerAbortController f)) (signals st)).
  unfold removeEventListener.
  destruct (signals st !! context_signal (frame_context f) st);
    by rewrite ?length_insert.
Qed.

Lemma run_not_registered k evs : ∀ st,
  (∀ ev, ev ∈ evs → ev ≠ EvAbortOnTerminate k) →
  k ∉ abortControllers st → k ∉ abortControllers (run evs st).
Proof.
  induction evs as [|ev evs IH]; intros st Hevs Hk; [done|].
  change (run (ev :: evs) st) with (run evs (step st ev)). apply IH.
  { intros ev' Hin. apply Hevs. by apply elem_of_cons; right. }
  assert (ev ≠ EvAbortOnTerminate k) as Hne
    by (apply Hevs; by apply elem_of_cons; left).
  destruct ev; cbn; try done.
  - unfold abortOnTerminate. destruct (terminated st); cbn; [done|].
    apply Set_add_other; [done|]. congruence.
  - by apply Set_delete_other.
  - unfold terminate. destruct (terminated st); [done|]. apply not_elem_of_nil.
Qed.

(** X7.  What [terminate()] does to a call that has left the middleware.
    Once the [finally] block of a call has run, its controller is out of the
    set, whether or not the call had opted in; from then on, whatever
    happens ([terminate()] any number of times, other calls), its signal
    stays as it is and its controller stays out of the set, as long as
    nobody aborts the controller and the [abortOnTerminate] closure of the
    finished call is not invoked again.  A closure that is invoked after
    the exit is not refused (it tests [terminated] only): with a
    [terminate()] before or after it, the controller of the finished call
    is aborted. *)
Theorem finished_call_is_spared_by_terminate context st ctx evs evs' :
  objects st !! context = Some ctx →
  no_listener_to (length (signals st)) (signals st) →
  let inner := length (signals st) in
  let st3 := mw_finally (mkFrame context inner) (run evs (mw_enter context st).2) in
  (inner ∉ abortControllers st3) ∧
  ((∀ ev, ev ∈ evs' → spares inner ev) →
     is_aborted inner (signals (run evs' st3)) = is_aborted inner (signals st3) ∧
     (inner ∉ abortControllers (run evs' st3))) ∧
  (EvAbortOnTerminate inner ∈ evs' →
   terminated st3 = true ∨ EvTerminate ∈ evs' →
   (∀ f, EvExit f ∈ evs' → innerAbortController f ≠ inner) →
   is_aborted inner (signals (run evs' st3)) = true).
Proof.
  intros Hctx Hfresh inner st3.
  assert (inner ∉ abortControllers st3) as Hset by apply Set_delete_gone.
  assert (inner < length (signals st3)) as Hlt.
  { subst st3. rewrite mw_finally_length.
    apply run_length. rewrite mw_enter_length. subst inner. lia. }
  assert (no_listener_to inner (signals st3)) as Hno.
  { apply (mw_finally_no_listener context inner _ ctx).
    - by apply run_objects, mw_enter_objects.
    - eapply only_on_not_added.
      + apply run_not_added. rewrite mw_enter_length. subst inner. lia.
      + by apply mw_enter_only_on. }
  split; [done|]. split.
  - intros Hsp. split.
    + destruct (is_aborted inner (signals st3)) eqn:Hfl.
      * by apply run_latched.
      * assert (undisturbed (λ k, k = inner) st3) as H0.
        { split; [by intros k ->|].
          intros s sg k Hs Hin ->. exfalso. by eapply Hno. }
        apply (run_undisturbed _ evs') in H0.
        -- destruct H0 as [Hmem _]. by destruct (Hmem _ eq_refl) as (_ & _ & ?).
        -- intros ev k Hev ->. by apply Hsp.
    + apply run_not_registered; [|done]. intros ev Hev. by apply Hsp.
  - intros Hopt Hterm Hexit. by apply run_opted_aborted.
Qed.

(** X9.  Calls do not unregister one another.  Once a call has invoked
    [abortOnTerminate()], its controller is in the set for as long as
    [terminate()] has not been invoked and its own [finally] block has not
    run, whatever other calls do. *)
Theorem registration_is_stable inner st evs :
  (∀ f, EvExit f ∈ evs → innerAbortController f ≠ inner) →
  terminated (run evs (abortOnTerminate inner st)) = false →
  inner ∈ abortControllers (run evs (abortOnTerminate inner st)).
Proof.
  assert (∀ s, terminated s = false → inner ∈ abortControllers s →
          (∀ f, EvExit f ∈ evs → innerAbortController f ≠ inner) →
          terminated (run evs s) = false → inner ∈ abortControllers (run evs s))
    as Hgen.
  { induction evs as [|ev evs IH]; intros s Ht Hin Hexit Hend; [done|].
    change (run (ev :: evs) s) with (run evs (step s ev)) in *.
    assert (terminated (step s ev) = false) as Ht'.
    { destruct (terminated (step s ev)) eqn:E; [|done].
      by rewrite (run_terminated evs _ E) in Hend. }
    apply IH; [done| |intros f Hf; apply Hexit; by apply elem_of_cons; right
               |done].
    destruct ev; cbn in *; try done.
    - unfold abortOnTerminate. rewrite Ht. cbn. by apply Set_add_keeps.
    - apply Set_delete_keeps; [done|]. intros Heq.
      eapply Hexit; [by apply elem_of_cons; left|done].
    - by rewrite terminate_terminated in Ht'. }
  intros Hexit Hend.
  destruct (terminated st) eqn:Ht.
  - assert (terminated (abortOnTerminate inner st) = true) as Ht1
      by (unfold abortOnTerminate; by rewrite Ht).
    by rewrite (run_terminated evs _ Ht1) in Hend.
  - apply Hgen; [| |done..]; unfold abortOnTerminate; rewrite Ht; cbn;
      [done|apply Set_add_elem].
Qed.

(** X8.  The [abortOnTerminate] that downstream code finds on its context is
    the closure of this very call, also when the outer context already
    carried an [abortOnTerminate] (of an enclosing terminator), and stays so
    whatever happens: invoking it does what [abortOnTerminate()] does for
    the inner controller of the call. *)
Theorem context_abortOnTerminate_is_own_closure context st evs :
  let '(f, context', st1) := mw_enter context st in
  call_abortOnTerminate context' (run evs st1)
  = abortOnTerminate (innerAbortController f) (run evs st1).
Proof.
  cbn. unfold call_abortOnTerminate.
  set (st1 := mkState _ _ _ _).
  assert (objects st1 !! length (objects st)
          = Some (inner_context (objects st !!! context)
                    (length (signals st)))) as H1.
  { subst st1. cbn. by rewrite lookup_app_r, Nat.sub_diag. }
  rewrite (list_lookup_total_correct _ _ _ (run_objects evs _ _ _ H1)).
  cbn. by rewrite lookup_insert_eq.
Qed.
End AfterExit.

(** ** Instances on the small world *)

Section InFlightInstances.

Lemma one_call_no_listeners k : no_listener_to k (signals one_call).
Proof.
  intros [|s] sg Hs Hin; cbn in Hs.
  - injection Hs as <-. by apply elem_of_nil in Hin.
  - by destruct s.
Qed.

(** Two calls in flight, of which only the first has opted in. *)
Lemma terminate_idempotent_witness :
  terminate (terminate two_calls) = terminate two_calls ∧
  abortControllers (terminate two_calls) = [] ∧
  is_aborted 1 (signals (terminate two_calls)) = true ∧
  signals (terminate two_calls) !! 2 = signals two_calls !! 2 ∧
  signals (terminate two_calls) !! 3 = signals two_calls !! 3.
Proof.
  pose proof (terminate_idempotent two_calls eq_refl)
    as (_ & Hempty & Hall & Hrest & _ & _ & Hidem).
  assert (closed_under_forwarding (λ k, k = 2 ∨ k = 3) (signals two_calls))
    as Hcl.
  { intros [|[|[|[|s]]]] sg k Hs Hin Hk; cbn in Hs; try discriminate Hs;
      injection Hs as <-; cbn in Hin.
    - apply list_elem_of_singleton in Hin. injection Hin as ->.
      destruct Hk as [Hk|Hk]; discriminate Hk.
    - by apply elem_of_nil in Hin.
    - by left.
    - by right. }
  assert (∀ k, k = 2 ∨ k = 3 → k ∉ abortControllers two_calls) as Hout.
  { intros k Hk Hin. apply list_elem_of_singleton in Hin. subst k.
    destruct Hk as [Hk|Hk]; discriminate Hk. }
  split; [exact Hidem|]. split; [exact Hempty|]. split; [|split].
  - apply Hall; [apply list_elem_of_singleton; reflexivity|cbn; lia].
  - apply (Hrest _ Hcl Hout). by left.
  - apply (Hrest _ Hcl Hout). by right.
Defined.

(** The peer cancels after [terminate()] was invoked on a call that had not
    opted in. *)
Lemma outer_abort_reaches_inner_witness :
  is_aborted 1 (signals (run [EvTerminate; EvAbort 0] (mw_enter 0 one_call).2))
  = true.
Proof.
  apply (outer_abort_reaches_inner 0 one_call (mkContext 0 ∅)
           [EvTerminate; EvAbort 0]).
  - reflexivity.
  - cbn. lia.
  - reflexivity.
  - intros f Hin. apply elem_of_cons in Hin as [Hin|Hin]; [discriminate Hin|].
    apply elem_of_cons in Hin as [Hin|Hin]; [discriminate Hin|].
    by apply elem_of_nil in Hin.
  - reflexivity.
Defined.

(** A call that opted in and was aborted by [terminate()], then left. *)
Lemma forwarding_listener_not_leaked_witness :
  no_listener_to 1
    (signals (mw_finally (mkFrame 0 1)
                (run [EvAbortOnTerminate 1; EvTerminate] (mw_enter 0 one_call).2))).
Proof.
  apply (forwarding_listener_not_leaked 0 one_call (mkContext 0 ∅)
           [EvAbortOnTerminate 1; EvTerminate]).
  - reflexivity.
  - apply one_call_no_listeners.
Defined.

(** [terminate()] while a call that has not opted in is running. *)
Lemma call_not_opted_in_is_spared_witness :
  let st2 := run [EvTerminate; EvNewController] (mw_enter 0 one_call).2 in
  is_aborted 1 (signals st2) = false ∧ is_aborted 0 (signals st2) = false ∧
  ∀ err, mw_catch (mkFrame 0 1) err st2 = err.
Proof.
  apply (call_not_opted_in_is_spared 0 one_call (mkContext 0 ∅)
           [EvTerminate; EvNewController]).
  - reflexivity.
  - cbn. lia.
  - reflexivity.
  - apply not_elem_of_nil.
  - apply not_elem_of_nil.
  - apply one_call_no_listeners.
  - apply one_call_no_listeners.
  - intros ev Hin. apply elem_of_cons in Hin as [->|Hin].
    { repeat split; discriminate. }
    apply elem_of_cons in Hin as [->|Hin].
    { repeat split; discriminate. }
    by apply elem_of_nil in Hin.
Defined.

(** [terminate()] first, [abortOnTerminate()] afterwards. *)
Lemma opted_in_call_is_aborted_by_shutdown_witness :
  is_aborted 1
    (signals (run [EvTerminate; EvAbortOnTerminate 1] (mw_enter 0 one_call).2))
  = true.
Proof.
  apply (opted_in_call_is_aborted_by_shutdown 0 one_call
           [EvTerminate; EvAbortOnTerminate 1]).
  - apply elem_of_cons. right. apply elem_of_cons. by left.
  - right. apply elem_of_cons. by left.
  - intros f Hin. apply elem_of_cons in Hin as [Hin|Hin]; [discriminate Hin|].
    apply elem_of_cons in Hin as [Hin|Hin]; [discriminate Hin|].
    by apply elem_of_nil in Hin.
Defined.

(** The handler opts in, [terminate()] runs, the handler throws. *)
Lemma shutdown_is_reported_as_unavailable_witness :
  (terminatorMiddleware
     (scripted [EvAbortOnTerminate 1; EvTerminate] [] (Threw AbortError))
     0 one_call).1.2
  = Threw (ServerError UNAVAILABLE "Server shutting down").
Proof.
  apply (shutdown_is_reported_as_unavailable _ 0 one_call (mkContext 0 ∅)
           [EvAbortOnTerminate 1; EvTerminate] [] AbortError).
  - reflexivity.
  - cbn. lia.
  - reflexivity.
  - apply not_elem_of_nil.
  - apply one_call_no_listeners.
  - reflexivity.
  - apply elem_of_cons. by left.
  - right. apply elem_of_cons. right. apply elem_of_cons. by left.
  - intros f Hin. apply elem_of_cons in Hin as [Hin|Hin]; [discriminate Hin|].
    apply elem_of_cons in Hin as [Hin|Hin]; [discriminate Hin|].
    by apply elem_of_nil in Hin.
  - intros ev Hin. apply elem_of_cons in Hin as [->|Hin].
    { split; discriminate. }
    apply elem_of_cons in Hin as [->|Hin].
    { split; discriminate. }
    by apply elem_of_nil in Hin.
Defined.

(** The handler opts in, the peer cancels, [terminate()] runs, the handler
    throws. *)
Lemma peer_cancellation_is_forwarded_witness :
  (terminatorMiddleware
     (scripted ([EvAbortOnTerminate 1; EvAbort 0] ++ [EvTerminate]) []
        (Threw AbortError))
     0 one_call).1.2
  = Threw AbortError.
Proof.
  apply (peer_cancellation_is_forwarded _ 0 one_call (mkContext 0 ∅)
           [EvAbortOnTerminate 1; EvAbort 0] [EvTerminate] [] AbortError).
  - reflexivity.
  - reflexivity.
  - reflexivity.
Defined.

(** A second call enters, opts in and leaves while the first is
    registered. *)
Lemma registration_is_stable_witness :
  1 ∈ abortControllers
        (run [EvEnter 0; EvAbortOnTerminate 2; EvExit (mkFrame 0 2)]
           (abortOnTerminate 1 (mw_enter 0 one_call).2)).
Proof.
  apply (registration_is_stable 1 (mw_enter 0 one_call).2
           [EvEnter 0; EvAbortOnTerminate 2; EvExit (mkFrame 0 2)]).
  - intros f Hin. apply elem_of_cons in Hin as [Hin|Hin]; [discriminate Hin|].
    apply elem_of_cons in Hin as [Hin|Hin]; [discriminate Hin|].
    apply elem_of_cons in Hin as [Hin|Hin];
      [injection Hin as ->; cbn; lia|].
    by apply elem_of_nil in Hin.
  - reflexivity.
Defined.

(** A call opts in and leaves; [terminate()] comes afterwards, once with
    the closure left alone and once with the closure invoked again. *)
Lemma finished_call_is_spared_by_terminate_witness :
  let st3 := mw_finally (mkFrame 0 1)
               (run [EvAbortOnTerminate 1] (mw_enter 0 one_call).2) in
  (1 ∉ abortControllers st3) ∧
  is_aborted 1 (signals (run [EvEnter 0; EvTerminate] st3)) = false ∧
  is_aborted 1 (signals (run [EvAbortOnTerminate 1; EvTerminate] st3)) = true.
Proof.
  pose proof (finished_call_is_spared_by_terminate 0 one_call (mkContext 0 ∅)
                [EvAbortOnTerminate 1] [EvEnter 0; EvTerminate] eq_refl
                (one_call_no_listeners 1)) as (Hout & Hspared & _).
  pose proof (finished_call_is_spared_by_terminate 0 one_call (mkContext 0 ∅)
                [EvAbortOnTerminate 1] [EvAbortOnTerminate 1; EvTerminate]
                eq_refl (one_call_no_listeners 1)) as (_ & _ & Hagain).
  split; [exact Hout|]. split.
  - apply Hspared. intros ev Hin.
    apply elem_of_cons in Hin as [->|Hin]; [split; discriminate|].
    apply elem_of_cons in Hin as [->|Hin]; [split; discriminate|].
    by apply elem_of_nil in Hin.
  - apply Hagain.
    + apply elem_of_cons. by left.
    + right. apply elem_of_cons. right. apply elem_of_cons. by left.
    + intros f Hin.
      apply elem_of_cons in Hin as [Hin|Hin]; [discriminate Hin|].
      apply elem_of_cons in Hin as [Hin|Hin]; [discriminate Hin|].
      by apply elem_of_nil in Hin.
Defined.
End InFlightInstances.

(** * The middleware chain *)

Module ChainProps.
Import Chain.

(** C5.  With [use(m1).use(m2)] around a unary handler, a call logs the start
    and the request of m1, then those of m2, then what the handler logs,
    then the response of m2, then that of m1; the handler runs on the
    context extended by m1 and then by m2, so it reads the values of both. *)
Theorem chain_order ext1 ext2 p1 p2 md handler req context r hlog :
  handler req (ext2 ∪ (ext1 ∪ context)) = (inr r, hlog) →
  handle (use (createTestServerMiddleware ext2 p2)
            (use (createTestServerMiddleware ext1 p1) createServer))
    md handler req context
  = (inr r,
     [start_action (p1 +:+ "start") (requestStream md) (responseStream md);
      request_action (p1 +:+ "request") req;
      start_action (p2 +:+ "start") (requestStream md) (responseStream md);
      request_action (p2 +:+ "request") req]
     ++ hlog
     ++ [response_action (p2 +:+ "response") r;
         response_action (p1 +:+ "response") r]) ∧
  (∀ k v, ext2 !! k = Some v → (ext2 ∪ (ext1 ∪ context)) !! k = Some v) ∧
  (∀ k v, ext1 !! k = Some v → ext2 !! k = None →
     (ext2 ∪ (ext1 ∪ context)) !! k = Some v).
Proof.
  intros Hh. split; [|split].
  - unfold handle, use, createServer, createTestServerMiddleware.
    cbn. rewrite Hh. cbn. by rewrite <- !app_assoc.
  - intros k v Hk. by apply lookup_union_Some_l.
  - intros k v Hk1 Hk2. rewrite lookup_union_r by done.
    by apply lookup_union_Some_l.
Qed.

(** The call of the test: the log is the snapshot of part_000:55-97. *)
Lemma chain_order_witness :
  handle test_server TestUnary testUnary (mkRequest "test") ∅
  = (inr (mkResponse "test"),
     [start_action "middleware1-start" false false;
      request_action "middleware1-request" (mkRequest "test");
      start_action "middleware2-start" false false;
      request_action "middleware2-request" (mkRequest "test");
      handler_action "request" (Some (VString "test-value-1"))
        (Some (VString "test-value-2"));
      response_action "middleware2-response" (mkResponse "test");
      response_action "middleware1-response" (mkResponse "test")]).
Proof.
  exact (proj1 (chain_order {["test1" := VString "test-value-1"]}
                  {["test2" := VString "test-value-2"]}
                  "middleware1-" "middleware2-" TestUnary testUnary
                  (mkRequest "test") ∅ (mkResponse "test") _ eq_refl)).
Defined.

End ChainProps.

(** * Client-streaming calls: a handler that throws [ServerError] *)

Module ClientStreamingProps.
Import ClientStreaming.

Lemma wire_entry_fixed e :
  wire_entry e = e ↔ is_binary_key e.1 = true ∨ ∃ v, e.2 = [v].
Proof.
  destruct e as [k vs]. unfold wire_entry. cbn.
  destruct (is_binary_key k); split.
  - by left.
  - done.
  - intros [= H]. right. by exists (String.concat ", " vs).
  - intros [?|[v ->]]; [done|]. done.
Qed.

(** Metadata arrives as it was set exactly when every text key has one
    value. *)
Lemma wire_metadata_fixed md : wire_metadata md = md ↔ text_single_valued md.
Proof.
  unfold wire_metadata, text_single_valued.
  induction md as [|e md IH]; cbn [fmap list_fmap].
  - split; [intros _; apply Forall_nil_2|done].
  - rewrite Forall_cons. rewrite <- IH, <- wire_entry_fixed. split.
    + intros [= He Hmd]. done.
    + intros [-> ->]. done.
Qed.

Lemma fired_signal causes : ∀ sc,
  signal_aborted (foldl fire sc causes) = false ↔
  signal_aborted sc = false ∧ causes = [].
Proof.
  induction causes as [|c causes IH]; intros sc; cbn [foldl].
  - split; [by intros ?|by intros [? _]].
  - rewrite IH. cbn. split; [intros [H _]|intros [_ H]]; discriminate H.
Qed.

Lemma fired_rest causes : ∀ sc,
  context (foldl fire sc causes) = context sc ∧
  sent (foldl fire sc causes) = sent sc.
Proof.
  induction causes as [|c causes IH]; intros sc; cbn [foldl]; [done|].
  by destruct (IH (fire sc c)) as [-> ->].
Qed.

Lemma fired_peer causes : ∀ sc,
  peer_gone sc = false → PeerCancelled ∉ causes →
  peer_gone (foldl fire sc causes) = false.
Proof.
  induction causes as [|c causes IH]; intros sc Hp Hc; cbn [foldl]; [done|].
  apply not_elem_of_cons in Hc as [Hne Hc]. apply IH; [|done]. cbn.
  rewrite Hp. by rewrite bool_decide_eq_false_2.
Qed.




End ClientStreamingProps.

(** * Cancellation of a client-streaming call *)

Module CancellationProps.
Import ClientStreaming Cancellation.

Lemma happen_outcome w e :
  outcome w ≠ None → outcome (happen w e) = outcome w.
Proof.
  destruct w as [es o tc rq fin ss sf h st ab]. cbn. intros Ho.
  destruct e; cbn.
  - unfold external_abort. cbn. by destruct o.
  - unfold cancel_arrives. cbn. destruct (tc && negb ss); [|done].
    by destruct h.
  - unfold timer_fires. cbn. by destruct rq.
Qed.

(** Progress of one part of the call through whatever happens, given how
    one happening moves it. *)
Lemma play_progress (I : bool → bool → World → Prop) :
  (∀ c t w e, outcome w ≠ None → I c t w →
     I (c || bool_decide (e = CancelArrives))
       (t || bool_decide (e = TimerFires)) (happen w e)) →
  ∀ es c t w, outcome w ≠ None → I c t w →
    (c = true ∨ CancelArrives ∈ es) → (t = true ∨ TimerFires ∈ es) →
    I true true (play es w).
Proof.
  intros Hstep. induction es as [|e es IH]; intros c t w Ho Hw Hc Ht.
  - destruct Hc as [->|Hc]; [|by apply elem_of_nil in Hc].
    destruct Ht as [->|Ht]; [|by apply elem_of_nil in Ht]. done.
  - change (play (e :: es) w) with (play es (happen w e)).
    eapply (IH _ _ _ _ (Hstep c t w e Ho Hw)).
    + destruct Hc as [->|Hc]; [by left|].
      apply elem_of_cons in Hc as [<-|Hc]; [left|by right].
      by rewrite bool_decide_eq_true_2, orb_true_r.
    + destruct Ht as [->|Ht]; [by left|].
      apply elem_of_cons in Ht as [<-|Ht]; [left|by right].
      by rewrite bool_decide_eq_true_2, orb_true_r.
  Unshelve. by rewrite happen_outcome.
Qed.

Ltac happening_cases e :=
  destruct e; cbn [happen];
  rewrite ?bool_decide_eq_true_2, ?bool_decide_eq_false_2, ?orb_false_r,
    ?orb_true_r by done.

Lemma happen_producer_winding d0 c t w e :
  outcome w ≠ None → producer_winding d0 c t w →
  producer_winding d0 (c || bool_decide (e = CancelArrives))
    (t || bool_decide (e = TimerFires)) (happen w e).
Proof.
  destruct w as [es o tc rq fin ss sf h st ab]. unfold producer_winding.
  cbn. intros Ho Hp. happening_cases e.
  - unfold external_abort. cbn. by destruct o.
  - unfold cancel_arrives. cbn. destruct (tc && negb ss); [|done].
    by destruct h.
  - unfold timer_fires. cbn.
    destruct Hp as [[-> ->]|(-> & -> & i & ->)]; cbn; by left.
Qed.

Lemma happen_producer_skipped d0 c t w e :
  outcome w ≠ None → producer_skipped d0 c t w →
  producer_skipped d0 (c || bool_decide (e = CancelArrives))
    (t || bool_decide (e = TimerFires)) (happen w e).
Proof.
  destruct w as [es o tc rq fin ss sf h st ab]. unfold producer_skipped.
  cbn. intros Ho [-> ->]. destruct e; cbn [happen].
  - unfold external_abort. cbn. by destruct o.
  - unfold cancel_arrives. cbn. destruct (tc && negb ss); [|done].
    by destruct h.
  - done.
Qed.

Lemma happen_signal_reached c t w e :
  outcome w ≠ None → signal_reached c t w →
  signal_reached (c || bool_decide (e = CancelArrives))
    (t || bool_decide (e = TimerFires)) (happen w e).
Proof.
  destruct w as [es o tc rq fin ss sf h st ab]. unfold signal_reached.
  cbn. intros Ho [-> Hs]. happening_cases e.
  - unfold external_abort. cbn. by destruct o.
  - unfold cancel_arrives. cbn. destruct ss; cbn; [by split; [|left]|].
    destruct h; cbn; by split; [|left].
  - unfold timer_fires. cbn. by destruct rq.
Qed.

Lemma happen_handler_thrown d0 c t w e :
  outcome w ≠ None → handler_thrown d0 c t w →
  handler_thrown d0 (c || bool_decide (e = CancelArrives))
    (t || bool_decide (e = TimerFires)) (happen w e).
Proof.
  destruct w as [es o tc rq fin ss sf h st ab]. unfold handler_thrown.
  cbn. intros Ho [-> Hs]. happening_cases e.
  - unfold external_abort. cbn. by destruct o.
  - unfold cancel_arrives. cbn.
    destruct Hs as [(-> & -> & ->)|(-> & -> & -> & ->)]; cbn;
      (split; [done|by left]).
  - unfold timer_fires. cbn. by destruct rq.
Qed.

Lemma happen_handler_left h0 c t w e :
  outcome w ≠ None → handler_left h0 c t w →
  handler_left h0 (c || bool_decide (e = CancelArrives))
    (t || bool_decide (e = TimerFires)) (happen w e).
Proof.
  destruct w as [es o tc rq fin ss sf h st ab]. unfold handler_left.
  cbn. intros Ho [Hne ->]. split; [done|]. destruct e; cbn [happen].
  - unfold external_abort. cbn. by destruct o, rq.
  - unfold cancel_arrives. cbn. destruct (tc && negb ss); [|done].
    by destruct h0.
  - unfold timer_fires. cbn. by destruct rq.
Qed.




End CancellationProps.
